(** * spectools_ir.utils.utils: lookup tables and the resolution convolver

    A shallow embedding of [spectools_ir/utils/utils.py]:

    - [spec_convol] and [spec_convol_R], the variable-resolution
      resampling-and-convolution routine;
    - the molecule tables behind [get_molecule_identifier],
      [translate_molecule_identifier], [_check_hitran],
      [get_global_identifier] and [get_molmass];
    - [get_miri_mrs_wavelengths], the sub-band table, and
      [get_miri_mrs_resolution], the resolving power of the sub-bands;
    - the line lists: [extract_hitran_data], the selection of rows of
      [extract_hitran_from_par] and the filtering tail of
      [extract_hitran_ch3p].

    The functions that evaluate [sqrt], [exp] or [log]
    ([compute_thermal_velocity], [markgauss], [sigma_to_fwhm],
    [fwhm_to_sigma], [make_rotation_diagram]) and the plotting routine
    have no counterpart in rational arithmetic and are left out.

    Numbers.  The Python code computes with IEEE doubles.  Here a finite
    double is idealised as an exact rational ([Q]); every arithmetic step
    is written out as the source has it, without rounding.  numpy does
    not raise on a division by zero, it produces [inf] or [nan] and goes
    on; the embedding marks that event with the outcome [NotFinite] and
    tracks the computation no further.  Exceptions are the outcome
    [Raise]. *)

From Stdlib Require Import String Ascii ZArith QArith Qminmax Qabs.
From Stdlib Require Import Lia Lqa Bool DecimalString List.
Import ListNotations.

Local Open Scope string_scope.
Local Open Scope list_scope.
Local Open Scope Q_scope.

(** ** Outcomes of a call *)

Inductive exn : Type :=
| KeyError
| ValueError
| ZeroDivisionError
| NotImplementedError
| KernelNormalizationError
| OSError
| UnboundLocalError (name : string)
| SystemExit (code : Z).

(** The part of Python's exception hierarchy the module meets. *)
Definition is_LookupError (e : exn) : bool :=
  match e with KeyError => true | _ => false end.

Definition is_NameError (e : exn) : bool :=
  match e with UnboundLocalError _ => true | _ => false end.

Inductive outcome (A : Type) : Type :=
| Ok (a : A)
| Raise (e : exn)
| NotFinite.

Arguments Ok {A} a.
Arguments Raise {A} e.
Arguments NotFinite {A}.

Definition bind {A B : Type} (m : outcome A) (k : A -> outcome B) : outcome B :=
  match m with
  | Ok a => k a
  | Raise e => Raise e
  | NotFinite => NotFinite
  end.

Definition fmap {A B : Type} (f : A -> B) (m : outcome A) : outcome B :=
  bind m (fun a => Ok (f a)).

Notation "x <- m ;; k" := (bind m (fun x => k))
  (at level 61, m at next level, right associativity).

Definition returns {A : Type} (m : outcome A) : Prop := exists a, m = Ok a.

(** ** numpy on one-dimensional arrays *)

Module np.

(** [np.roll(a, shift)] for a non-negative shift: the last [shift]
    elements move to the front. *)
Definition roll (a : list Q) (shift : nat) : list Q :=
  let n := length a in
  let k := (n - Nat.modulo shift n)%nat in
  skipn k a ++ firstn k a.

(** Element-wise operations on two arrays of one length ([a - b] where
    both come from the same array) and on an array and a scalar. *)
Fixpoint zip_with (f : Q -> Q -> Q) (a b : list Q) : list Q :=
  match a, b with
  | x :: a', y :: b' => f x y :: zip_with f a' b'
  | _, _ => []
  end.

Definition sub (a b : list Q) : list Q := zip_with Qminus a b.

Definition abs (a : list Q) : list Q := map Qabs a.

Definition add_scalar (a : list Q) (s : Q) : list Q := map (fun x => x + s) a.

(** [np.min(a)]: a reduction with no identity, a [ValueError] on an
    empty array. *)
Definition min (a : list Q) : outcome Q :=
  match a with
  | [] => Raise ValueError
  | x :: a' => Ok (fold_left Qmin a' x)
  end.

(** [np.max([2., x])]. *)
Definition max2 (x y : Q) : Q := Qmax x y.

Definition is_zero (x : Q) : bool := Qeq_bool x 0.

(** Division of doubles: a zero divisor gives [inf] or [nan] (and a
    warning), never an exception. *)
Definition fdiv (x y : Q) : outcome Q :=
  if is_zero y then NotFinite else Ok (x / y).

Fixpoint div_scalar (a : list Q) (s : Q) : outcome (list Q) :=
  match a with
  | [] => Ok []
  | x :: a' =>
      q <- fdiv x s ;;
      r <- div_scalar a' s ;;
      Ok (q :: r)
  end.

Fixpoint div_elementwise (a b : list Q) : outcome (list Q) :=
  match a, b with
  | x :: a', y :: b' =>
      q <- fdiv x y ;;
      r <- div_elementwise a' b' ;;
      Ok (q :: r)
  | _, _ => Ok []
  end.

Fixpoint scalar_div (x : Q) (b : list Q) : outcome (list Q) :=
  match b with
  | [] => Ok []
  | y :: b' =>
      q <- fdiv x y ;;
      r <- scalar_div x b' ;;
      Ok (q :: r)
  end.

(** [a / b] for two arrays, with numpy's broadcasting of a length-one
    operand; other length mismatches cannot be broadcast. *)
Definition div (a b : list Q) : outcome (list Q) :=
  if Nat.eqb (length a) (length b) then div_elementwise a b
  else match a, b with
       | _, [y] => div_scalar a y
       | [x], _ => scalar_div x b
       | _, _ => Raise ValueError
       end.

(** [np.cumsum(a)]. *)
Fixpoint cumsum_from (acc : Q) (a : list Q) : list Q :=
  match a with
  | [] => []
  | x :: a' => (acc + x) :: cumsum_from (acc + x) a'
  end.

Definition cumsum (a : list Q) : list Q :=
  match a with
  | [] => []
  | x :: a' => x :: cumsum_from x a'
  end.

Definition Qlt_bool (x y : Q) : bool := negb (Qle_bool y x).

(** The search of [np.interp] for the interval of [x]: the loop
    [for (i = 1; i < len && key >= arr[i]; ++i)] of numpy's
    [linear_search], carrying the sample [(x0, f0)] at index [i - 1].
    numpy uses this loop as it is up to four sample points and a
    bisection beyond, which finds the same interval whenever [xp] is
    ascending. *)
Fixpoint interp_search (x : Q) (xp fp : list Q) (x0 f0 : Q) : Q :=
  match xp, fp with
  | x1 :: xp', f1 :: fp' =>
      if Qle_bool x1 x then interp_search x xp' fp' x1 f1
      else if Qeq_bool x0 x then f0
      else (f1 - f0) / (x1 - x0) * (x - x0) + f0
  | _, _ => f0
  end.

(** One evaluation of [np.interp]: right of the last sample the last
    value, left of the first sample the first value, in that order. *)
Definition interp1 (xp fp : list Q) (x : Q) : Q :=
  match xp, fp with
  | x0 :: xp', f0 :: fp' =>
      if Qlt_bool (last xp x0) x then last fp f0
      else if Qlt_bool x x0 then f0
      else interp_search x xp' fp' x0 f0
  | _, _ => 0
  end.

(** [np.interp(x, xp, fp)]: [ValueError] when [xp] is empty or [fp]
    has another length; [xp] is not checked for being ascending. *)
Definition interp (x xp fp : list Q) : outcome (list Q) :=
  match xp with
  | [] => Raise ValueError
  | _ :: _ =>
      if Nat.eqb (length xp) (length fp) then Ok (map (interp1 xp fp) x)
      else Raise ValueError
  end.

End np.

(** ** astropy.convolution *)

Module astropy.

Inductive boundary : Type :=
| boundary_fill
| boundary_wrap
| boundary_extend.

Definition kernel_sum (k : list Q) : Q := fold_right Qplus 0 k.

(** The value a convolution reads at index [t] of the array [a], inside
    or outside of it.  Outside, ['fill'] reads [fill_value], ['wrap']
    reads the array periodically and ['extend'] reads the nearest edge
    element. *)
Definition sample (b : boundary) (fill_value : Q) (a : list Q) (t : Z) : Q :=
  let n := Z.of_nat (length a) in
  if ((0 <=? t) && (t <? n))%Z then nth (Z.to_nat t) a 0
  else match b with
       | boundary_fill => fill_value
       | boundary_wrap => nth (Z.to_nat (t mod n)) a 0
       | boundary_extend => if (t <? 0)%Z then nth 0 a 0 else last a 0
       end.

(** [sum_j k[j] * a[t - j]], the kernel running from index [0]. *)
Fixpoint convolve_at (b : boundary) (fill_value : Q) (a k : list Q) (t : Z) : Q :=
  match k with
  | [] => 0
  | w :: k' => w * sample b fill_value a t + convolve_at b fill_value a k' (t - 1)
  end.

(** The convolution of [a] with the kernel [k] centred on its middle
    element, of the shape of [a]. *)
Definition convolve_direct (b : boundary) (fill_value : Q) (a k : list Q) : list Q :=
  let c := Z.of_nat (Nat.div (length k) 2) in
  map (fun i => convolve_at b fill_value a k (Z.of_nat i + c)) (seq 0 (length a)).

(** [normalize_kernel=True]: the kernel is divided by its sum, and
    refused when the sum is below [1 / MAX_NORMALIZATION]. *)
Definition normalize (k : list Q) : outcome (list Q) :=
  if np.Qlt_bool (kernel_sum k) (1 / 100) then Raise KernelNormalizationError
  else np.div_scalar k (kernel_sum k).

(** [convolve_fft(array, kernel, normalize_kernel=..., boundary=...)]
    with the default [fill_value=0.0].  The transform computes the
    convolution sum; the embedding writes the sum out.  The FFT routine
    has no ['extend'] mode. *)
Definition convolve_fft (a k : list Q) (normalize_kernel : bool) (b : boundary)
  : outcome (list Q) :=
  match b with
  | boundary_extend => Raise NotImplementedError
  | _ =>
      kn <- (if normalize_kernel then normalize k else Ok k) ;;
      Ok (convolve_direct b 0 a kn)
  end.

End astropy.

(** ** The resolution convolver *)

(** [astropy.constants.c.value], the speed of light in m/s. *)
Definition c_value : Q := 299792458.

(** The resolving power handed to [spec_convol_R]: one number, or one
    number per wavelength. *)
Inductive resolution : Type :=
| Scalar (r : Q)
| Array (rs : list Q).

(** [wave / R]. *)
Definition div_resolution (wave : list Q) (R : resolution) : outcome (list Q) :=
  match R with
  | Scalar r => np.div_scalar wave r
  | Array rs => np.div wave rs
  end.

(** The local variables of [spec_convol] and [spec_convol_R] at the
    [return].  [fwhm_s] is assigned twice in the source: [fwhm_s_min] is
    its first value, [fwhm_s] its second. *)
Record convol_locals : Type := mk_convol_locals {
  dws : list Q;
  dw_min : Q;
  fwhm : list Q;
  fwhm_s_min : Q;
  fwhm_s : Q;
  ds : list Q;
  wave_constfwhm : list Q;
  flux_constfwhm : list Q;
  sigma_s : Q;
  g : list Q;
  flux_conv : list Q;
  flux_oldsampling : list Q
}.

Section Convolver.

(** [Gaussian1DKernel(sigma)]: the array of a sampled Gaussian of
    standard deviation [sigma] pixels.  Its entries are values of the
    exponential function; the embedding takes the array as given.  The
    source tries the keyword [width=] of old astropy versions first and
    falls back on the positional argument; both build this kernel. *)
Variable Gaussian1DKernel : Q -> list Q.

Definition spec_convol_locals (wave flux : list Q) (dv : Q) : outcome convol_locals :=
  R <- (if np.is_zero (dv * 1e3) then Raise ZeroDivisionError
        else Ok (c_value / (dv * 1e3))) ;;
  let dws := np.abs (np.sub wave (np.roll wave 1)) in
  dw_min <- np.min dws ;;
  fwhm <- np.div_scalar wave R ;;
  sampling <- np.div_scalar fwhm dw_min ;;
  fwhm_s_min <- np.min sampling ;;
  let fwhm_s := np.max2 2 fwhm_s_min in
  ds <- np.div_scalar fwhm fwhm_s ;;
  let cs := np.cumsum ds in
  wave_min <- np.min wave ;;
  let wave_constfwhm := np.add_scalar cs wave_min in
  flux_constfwhm <- np.interp wave_constfwhm wave flux ;;
  sigma_s <- np.fdiv fwhm_s 2.3548 ;;
  let g := Gaussian1DKernel sigma_s in
  flux_conv <- astropy.convolve_fft flux_constfwhm g true astropy.boundary_fill ;;
  flux_oldsampling <- np.interp wave wave_constfwhm flux_conv ;;
  Ok (mk_convol_locals dws dw_min fwhm fwhm_s_min fwhm_s ds wave_constfwhm
        flux_constfwhm sigma_s g flux_conv flux_oldsampling).

Definition spec_convol (wave flux : list Q) (dv : Q) : outcome (list Q) :=
  fmap flux_oldsampling (spec_convol_locals wave flux dv).

Definition spec_convol_R_locals (wave flux : list Q) (R : resolution)
  : outcome convol_locals :=
  let dws := np.abs (np.sub wave (np.roll wave 1)) in
  dw_min <- np.min dws ;;
  fwhm <- div_resolution wave R ;;
  sampling <- np.div_scalar fwhm dw_min ;;
  fwhm_s_min <- np.min sampling ;;
  let fwhm_s := np.max2 2 fwhm_s_min in
  ds <- np.div_scalar fwhm fwhm_s ;;
  let cs := np.cumsum ds in
  wave_min <- np.min wave ;;
  let wave_constfwhm := np.add_scalar cs wave_min in
  flux_constfwhm <- np.interp wave_constfwhm wave flux ;;
  sigma_s <- np.fdiv fwhm_s 2.3548 ;;
  let g := Gaussian1DKernel sigma_s in
  flux_conv <- astropy.convolve_fft flux_constfwhm g true astropy.boundary_fill ;;
  flux_oldsampling <- np.interp wave wave_constfwhm flux_conv ;;
  Ok (mk_convol_locals dws dw_min fwhm fwhm_s_min fwhm_s ds wave_constfwhm
        flux_constfwhm sigma_s g flux_conv flux_oldsampling).

Definition spec_convol_R (wave flux : list Q) (R : resolution) : outcome (list Q) :=
  fmap flux_oldsampling (spec_convol_R_locals wave flux R).

End Convolver.

(** ** Lookup tables *)

(** A Python [dict] written as a literal: the items in source order.  A
    key written twice keeps its last value. *)
Fixpoint dict_get {V : Type} (key : string) (d : list (string * V)) : option V :=
  match d with
  | [] => None
  | (k, v) :: d' =>
      match dict_get key d' with
      | Some v' => Some v'
      | None => if String.eqb key k then Some v else None
      end
  end.

(** [d[key]]. *)
Definition subscript {V : Type} (d : list (string * V)) (key : string) : outcome V :=
  match dict_get key d with
  | Some v => Ok v
  | None => Raise KeyError
  end.

(** [str(n)] and [int(s)] on decimal numerals. *)
Definition str (n : Z) : string := NilZero.string_of_int (Z.to_int n).

Definition int (s : string) : outcome Z :=
  match NilZero.int_of_string s with
  | Some d => Ok (Z.of_int d)
  | None => Raise ValueError
  end.

(** What a call wrote on standard output, and how it ended. *)
Definition io (A : Type) : Type := (list string * outcome A)%type.

Definition lift {A : Type} (m : outcome A) : io A := ([], m).

Definition print (line : string) : io unit := ([line], Ok tt).

Definition io_bind {A B : Type} (m : io A) (k : A -> io B) : io B :=
  match m with
  | (out, Ok a) => let (out', r) := k a in (out ++ out', r)
  | (out, Raise e) => (out, Raise e)
  | (out, NotFinite) => (out, NotFinite)
  end.

Notation "x <-- m ;; k" := (io_bind m (fun x => k))
  (at level 61, m at next level, right associativity).

(** [try: body / except KeyError: handler]. *)
Definition try_except_KeyError {A : Type} (body handler : io A) : io A :=
  match body with
  | (out, Raise KeyError) => let (out', r) := handler in (out ++ out', r)
  | r => r
  end.

(** [sys.exit(code)] raises [SystemExit]; uncaught, it ends the process
    with that exit status. *)
Definition sys_exit {A : Type} (code : Z) : io A := ([], Raise (SystemExit code)).

Definition molecule_identifier_trans : list (string * string) :=
  [
   ("1", "H2O"); ("2", "CO2"); ("3", "O3"); ("4", "N2O"); ("5", "CO");
   ("6", "CH4"); ("7", "O2"); ("8", "NO"); ("9", "SO2"); ("10", "NO2");
   ("11", "NH3"); ("12", "HNO3"); ("13", "OH"); ("14", "HF"); ("15", "HCl");
   ("16", "HBr"); ("17", "HI"); ("18", "ClO"); ("19", "OCS"); ("20", "H2CO");
   ("21", "HOCl"); ("22", "N2"); ("23", "HCN"); ("24", "CH3Cl"); ("25", "H2O2");
   ("26", "C2H2"); ("27", "C2H6"); ("28", "PH3"); ("29", "COF2"); ("30", "SF6");
   ("31", "H2S"); ("32", "HCOOH"); ("33", "HO2"); ("34", "O"); ("35", "ClONO2");
   ("36", "NO+"); ("37", "HOBr"); ("38", "C2H4"); ("39", "CH3OH"); ("40", "CH3Br");
   ("41", "CH3CN"); ("42", "CF4"); ("43", "C4H2"); ("44", "HC3N"); ("45", "H2");
   ("46", "CS"); ("47", "SO3")
  ].

(** [{v:k for k,v in trans.items()}]. *)
Definition invert (d : list (string * string)) : list (string * string) :=
  map (fun kv => (snd kv, fst kv)) d.

Definition get_molecule_identifier (molecule_name : string) : outcome Z :=
  let trans := invert molecule_identifier_trans in
  k <- subscript trans molecule_name ;;
  int k.

Definition global_identifier_trans : list (string * Z) :=
  [
   ("H2O_1", 1); ("H2O_2", 2); ("H2O_3", 3); ("H2O_4", 4); ("H2O_5", 5);
   ("H2O_6", 6); ("H2O_7", 129); ("CO2_1", 7); ("CO2_2", 8); ("CO2_3", 9);
   ("CO2_4", 10); ("CO2_5", 11); ("CO2_6", 12); ("CO2_7", 13); ("CO2_8", 14);
   ("CO2_9", 121); ("CO2_10", 15); ("CO2_11", 120); ("CO2_12", 122); ("O3_1", 16);
   ("O3_2", 17); ("O3_3", 18); ("O3_4", 19); ("O3_5", 20); ("N2O_1", 21);
   ("N2O_2", 22); ("N2O_3", 23); ("N2O_4", 24); ("N2O_5", 25); ("CO_1", 26);
   ("CO_2", 27); ("CO_3", 28); ("CO_4", 29); ("CO_5", 30); ("CO_6", 31);
   ("CH4_1", 32); ("CH4_2", 33); ("CH4_3", 34); ("CH4_4", 35); ("O2_1", 36);
   ("O2_2", 37); ("O2_3", 38); ("NO_1", 39); ("NO_2", 40); ("NO_3", 41);
   ("SO2_1", 42); ("SO2_2", 43); ("NO2_1", 44); ("NH3_1", 45); ("NH3_2", 46);
   ("HNO3_1", 47); ("HNO3_2", 117); ("OH_1", 48); ("OH_2", 49); ("OH_3", 50);
   ("HF_1", 51); ("HF_2", 110); ("HCl_1", 52); ("HCl_2", 53); ("HCl_3", 107);
   ("HCl_4", 108); ("HBr_1", 54); ("HBr_2", 55); ("HBr_3", 111); ("HBr_4", 112);
   ("HI_1", 56); ("HI_2", 113); ("ClO_1", 57); ("ClO_2", 58); ("OCS_1", 59);
   ("OCS_2", 60); ("OCS_3", 61); ("OCS_4", 62); ("OCS_5", 63); ("H2CO_1", 64);
   ("H2CO_2", 65); ("H2CO_3", 66); ("HOCl_1", 67); ("HOCl_2", 68); ("N2_1", 69);
   ("N2_2", 118); ("HCN_1", 70); ("HCN_2", 71); ("HCN_3", 72); ("CH3Cl_1", 73);
   ("CH3CL_2", 74); ("H2O2_1", 75); ("C2H2_1", 76); ("C2H2_2", 77); ("C2H2_3", 105);
   ("C2H6_1", 78); ("C2H6_2", 106); ("PH3_1", 79); ("COF2_1", 80); ("COF2_2", 119);
   ("SF6_1", 126); ("H2S_1", 81); ("H2S_2", 82); ("H2S_3", 83); ("HCOOH_1", 84);
   ("HO2_1", 85); ("O_1", 86); ("ClONO2_1", 127); ("ClONO2_2", 128); ("NO+_1", 87);
   ("HOBr_1", 88); ("HOBr_2", 89); ("C2H4_1", 90); ("C2H4_2", 91); ("CH3OH_1", 92);
   ("CH3Br_1", 93); ("CH3Br_2", 94); ("CH3CN_1", 95); ("CF4_1", 96); ("C4H2_1", 116);
   ("HC3N_1", 109); ("H2_1", 103); ("H2_2", 115); ("CS_1", 97); ("CS_2", 98);
   ("CS_3", 99); ("CS_4", 100); ("SO3_1", 114); ("C2N2_1", 123); ("COCl2_1", 124);
   ("COCl2_2", 125); ("SiO_1", 200); ("C6H6_1", 300); ("CH3+_1", 400); ("C3H4_1", 500)
  ]%Z.

Definition get_global_identifier (molecule_name : string) (isotopologue_number : Z)
  : io Z :=
  let mol_isot_code := (molecule_name ++ "_" ++ str isotopologue_number)%string in
  try_except_KeyError
    (lift (subscript global_identifier_trans mol_isot_code))
    (_ <-- print ("The molecule/isot combination  " ++ mol_isot_code
                  ++ "  is not in HITRAN and not covered by this code.")%string ;;
     lift (Raise KeyError)).

Definition molmass_mass : list (string * Q) :=
  [
   ("H2O_1", 18.010565); ("H2O_2", 20.014811); ("H2O_3", 19.01478); ("H2O_4", 19.01674);
   ("H2O_5", 21.020985); ("H2O_6", 20.020956); ("H2O_7", 20.022915); ("CO2_1", 43.98983);
   ("CO2_2", 44.993185); ("CO2_3", 45.994076); ("CO2_4", 44.994045); ("CO2_5", 46.997431);
   ("CO2_6", 45.9974); ("CO2_7", 47.998322); ("CO2_8", 46.998291); ("CO2_9", 45.998262);
   ("CO2_10", 49.001675); ("CO2_11", 48.001646); ("CO2_12", 47.0016182378); ("O3_1", 47.984745);
   ("O3_2", 49.988991); ("O3_3", 49.988991); ("O3_4", 48.98896); ("O3_5", 48.98896);
   ("N2O_1", 44.001062); ("N2O_2", 44.998096); ("N2O_3", 44.998096); ("N2O_4", 46.005308);
   ("N2O_5", 45.005278); ("CO_1", 27.994915); ("CO_2", 28.99827); ("CO_3", 29.999161);
   ("CO_4", 28.99913); ("CO_5", 31.002516); ("CO_6", 30.002485); ("CH4_1", 16.0313);
   ("CH4_2", 17.034655); ("CH4_3", 17.037475); ("CH4_4", 18.04083); ("O2_1", 31.98983);
   ("O2_2", 33.994076); ("O2_3", 32.994045); ("NO_1", 29.997989); ("NO_2", 30.995023);
   ("NO_3", 32.002234); ("SO2_1", 63.961901); ("SO2_2", 65.957695); ("NO2_1", 45.992904);
   ("NO2_2", 46.989938); ("NH3_1", 17.026549); ("NH3_2", 18.023583); ("HNO3_1", 62.995644);
   ("HNO3_2", 63.99268); ("OH_1", 17.00274); ("OH_2", 19.006986); ("OH_3", 18.008915);
   ("HF_1", 20.006229); ("HF_2", 21.012404); ("HCl_1", 35.976678); ("HCl_2", 37.973729);
   ("HCl_3", 36.982853); ("HCl_4", 38.979904); ("HBr_1", 79.92616); ("HBr_2", 81.924115);
   ("HBr_3", 80.932336); ("HBr_4", 82.930289); ("HI_1", 127.912297); ("HI_2", 128.918472);
   ("ClO_1", 50.963768); ("ClO_2", 52.960819); ("OCS_1", 59.966986); ("OCS_2", 61.96278);
   ("OCS_3", 60.970341); ("OCS_4", 60.966371); ("OCS_5", 61.971231); ("OCS_6", 62.966136);
   ("H2CO_1", 30.010565); ("H2CO_2", 31.01392); ("H2CO_3", 32.014811); ("HOCl_1", 51.971593);
   ("HOCl_2", 53.968644); ("N2_1", 28.006148); ("N2_2", 29.003182); ("HCN_1", 27.010899);
   ("HCN_2", 28.014254); ("HCN_3", 28.007933); ("CH3Cl_1", 49.992328); ("CH3CL_2", 51.989379);
   ("H2O2_1", 34.00548); ("C2H2_1", 26.01565); ("C2H2_2", 27.019005); ("C2H2_3", 27.021825);
   ("C2H6_1", 30.04695); ("C2H6_2", 31.050305); ("PH3_1", 33.997238); ("COF2_1", 65.991722);
   ("COF2_2", 66.995083); ("SF6_1", 145.962492); ("H2S_1", 33.987721); ("H2S_2", 35.983515);
   ("H2S_3", 34.987105); ("HCOOH_1", 46.00548); ("HO2_1", 32.997655); ("O_1", 15.994915);
   ("ClONO2_1", 96.956672); ("ClONO2_2", 98.953723); ("NO+_1", 29.997989); ("HOBr_1", 95.921076);
   ("HOBr_2", 97.919027); ("C2H4_1", 28.0313); ("C2H4_2", 29.034655); ("CH3OH_1", 32.026215);
   ("CH3Br_1", 93.941811); ("CH3Br_2", 95.939764); ("CH3CN_1", 41.026549); ("CF4_1", 87.993616);
   ("C4H2_1", 50.01565); ("HC3N_1", 51.010899); ("H2_1", 2.01565); ("H2_2", 3.021825);
   ("CS_1", 43.971036); ("CS_2", 45.966787); ("CS_3", 44.974368); ("CS_4", 44.970399);
   ("SO3_1", 79.95682); ("C2N2_1", 52.006148); ("COCl2_1", 97.9326199796); ("COCl2_2", 99.9296698896);
   ("CS2_1", 75.94414); ("CS2_2", 77.93994); ("CS2_3", 76.943256); ("CS2_4", 76.947495);
   ("SiO_1", 44.0845); ("C6H6_1", 78.1118); ("CH3+_1", 15.0340); ("C3H4_1", 40.06)
  ].

Definition get_molmass (molecule_name : string) (isotopologue_number : Z) : outcome Q :=
  let mol_isot_code := (molecule_name ++ "_" ++ str isotopologue_number)%string in
  subscript molmass_mass mol_isot_code.

Definition mrs_wavelengths_w0 : list (string * Q) :=
  [
   ("1A", 4.87); ("1B", 5.62); ("1C", 6.49); ("2A", 7.45);
   ("2B", 8.61); ("2C", 9.91); ("3A", 11.47); ("3B", 13.25);
   ("3C", 15.30); ("4A", 17.54); ("4B", 20.44); ("4C", 23.84)
  ].

Definition mrs_wavelengths_w1 : list (string * Q) :=
  [
   ("1A", 5.82); ("1B", 6.73); ("1C", 7.76); ("2A", 8.90);
   ("2B", 10.28); ("2C", 11.87); ("3A", 13.67); ("3B", 15.80);
   ("3C", 18.24); ("4A", 21.10); ("4B", 24.72); ("4C", 28.82)
  ].

Definition get_miri_mrs_wavelengths (subband : string) : io (Q * Q) :=
  _ <-- try_except_KeyError
          (lift (subscript mrs_wavelengths_w0 subband))
          (_ <-- print "KeyError: Please provide a valid sub-band." ;;
           sys_exit 1) ;;
  lift (a <- subscript mrs_wavelengths_w0 subband ;;
        b <- subscript mrs_wavelengths_w1 subband ;;
        Ok (a, b)).

(** ** The CH3+ line list *)

Section CH3p.

(** pandas is outside of the module: a [DataFrame] is a type of its own,
    with the operations [extract_hitran_ch3p] calls on it.
    [read_fwf filename] is
    [pd.read_fwf(filename, widths=column_widths, skiprows=2, names=columns)];
    [derive_columns] stands for the three column assignments ([wn],
    [elower], [eup_k]); [wave_gt] and [wave_lt] are the comparisons
    [hitran_data['wave'] > x] and [hitran_data['wave'] < x], [mask_and]
    is [&] and [select] is indexing with a boolean mask. *)
Variable DataFrame : Type.
Variable Mask : Type.
Variable read_fwf : string -> outcome DataFrame.
Variable derive_columns : DataFrame -> outcome DataFrame.
Variable wave_gt : DataFrame -> Q -> Mask.
Variable wave_lt : DataFrame -> Q -> Mask.
Variable mask_and : Mask -> Mask -> Mask.
Variable select : DataFrame -> Mask -> DataFrame.

(** A local variable is bound by an assignment only; reading an unbound
    one raises [UnboundLocalError], a [NameError]. *)
Definition read_local {A : Type} (name : string) (v : option A) : outcome A :=
  match v with
  | Some a => Ok a
  | None => Raise (UnboundLocalError name)
  end.

Definition dquote : string := String (ascii_of_nat 34) EmptyString.

Definition extract_hitran_ch3p (filename : string) (wavemin wavemax : option Q)
  : io DataFrame :=
  _ <-- print ("Reading " ++ dquote ++ filename ++ dquote ++ " ...")%string ;;
  lift (
    hitran_data <- read_fwf filename ;;
    hitran_data <- derive_columns hitran_data ;;
    let waveminbool :=
      match wavemin with
      | Some x => Some (wave_gt hitran_data x)
      | None => None
      end in
    let wavemaxbool :=
      match wavemax with
      | Some x => Some (wave_lt hitran_data x)
      | None => None
      end in
    lhs <- read_local "waveminbool" waveminbool ;;
    rhs <- read_local "wavemaxbool" wavemaxbool ;;
    let extractbool := mask_and lhs rhs in
    let hitran_data := select hitran_data extractbool in
    Ok hitran_data).

End CH3p.

(** ** Inputs of the convolver *)

(** Wavelengths in strictly ascending order. *)
Fixpoint strictly_increasing (w : list Q) : Prop :=
  match w with
  | a :: (b :: _) as t => a < b /\ strictly_increasing t
  | _ => True
  end.

(** No two neighbours of the array, taken around the circle as [np.roll]
    does, are equal. *)
Definition positive_spacing (wave : list Q) : Prop :=
  Forall (fun d => 0 < d) (np.abs (np.sub wave (np.roll wave 1))).

(** A positive resolving power: one positive number, or one positive
    number per wavelength. *)
Definition valid_resolution (n : nat) (R : resolution) : Prop :=
  match R with
  | Scalar r => 0 < r
  | Array rs => length rs = n /\ Forall (fun r => 0 < r) rs
  end.

(** A kernel function whose kernels [convolve_fft] accepts for
    normalisation, as the sampled Gaussians are (their sum is close to
    one). *)
Definition normalizable (K : Q -> list Q) : Prop :=
  forall sigma, 1 / 100 <= astropy.kernel_sum (K sigma).

(** The kernel [[1; 2; 1]] at every width: a small stand-in for the
    sampled Gaussian, to run the convolver on concrete spectra. *)
Definition kernel_121 (sigma : Q) : list Q := [1; 2; 1].

(** ** The minimum spacing without the wrap-around term

    The spacing as the specification words it for a clean
    implementation: the differences [|wave[i] - wave[i-1]|] for
    [i = 1 .. n-1] only, and their minimum. *)
Fixpoint consecutive_spacings (w : list Q) : list Q :=
  match w with
  | a :: (b :: _) as t => Qabs (b - a) :: consecutive_spacings t
  | _ => []
  end.

Definition dw_min_consecutive (wave : list Q) : outcome Q :=
  np.min (consecutive_spacings wave).

(** The spacing as the source computes it, over the circular
    differences. *)
Definition dw_min_reference (wave : list Q) : outcome Q :=
  np.min (np.abs (np.sub wave (np.roll wave 1))).

(** ** Statements about the local variables

    The resampled grid of a finished call: its first point is the
    minimum wavelength plus the first step, every later point is the
    point before plus its own step, and the step is the local FWHM
    divided by the global sampling factor. *)
Definition grid_by_cumulative_sum (n : nat) (wave_min : Q) (fr : convol_locals) : Prop :=
  length (wave_constfwhm fr) = n /\
  nth 0 (wave_constfwhm fr) 0 == wave_min + nth 0 (ds fr) 0 /\
  (forall i, (1 <= i < n)%nat ->
     nth i (wave_constfwhm fr) 0 ==
     nth (i - 1) (wave_constfwhm fr) 0 + nth i (ds fr) 0) /\
  (forall i, (i < n)%nat -> nth i (ds fr) 0 == nth i (fwhm fr) 0 / fwhm_s fr).


(** The flux a finished call returns: one value per input wavelength, the
    interpolant of the convolved flux read at that wavelength. *)
Definition on_input_grid (wave out : list Q) (fr : convol_locals) : Prop :=
  out = flux_oldsampling fr /\
  length out = length wave /\
  out = map (np.interp1 (wave_constfwhm fr) (flux_conv fr)) wave.


(** A table of three wavelengths, for running [extract_hitran_ch3p]
    with the pandas operations read as list operations. *)
Definition ch3p_rows : list Q := [6.5; 7.1; 7.4].

Definition ch3p_read_fwf (filename : string) : outcome (list Q) := Ok ch3p_rows.

Definition ch3p_select (rows : list Q) (mask : list bool) : list Q :=
  map fst (filter snd (combine rows mask)).

Definition ch3p_mask_and (a b : list bool) : list bool :=
  map (fun p => andb (fst p) (snd p)) (combine a b).

(** ** More of the module

    The functions below are the rest of the lookups, the MIRI MRS
    resolution model and the line-list filters. *)

(** [translate_molecule_identifier(M)]: [trans[str(M)]] on the table of
    [get_molecule_identifier], not inverted. *)
Definition translate_molecule_identifier (M : Z) : outcome string :=
  subscript molecule_identifier_trans (str M).

Definition hitran_list : list string :=
  ["H2O"; "CO2"; "O3"; "N2O"; "CO"; "CH4"; "O2"; "NO"; "SO2"; "NO2"; "NH3";
   "HNO3"; "OH"; "HF"; "HCl"; "HBr";
   "HI"; "ClO"; "OCS"; "H2CO"; "HOCl"; "N2"; "HCN"; "CH3Cl";
   "H2O2"; "C2H2"; "C2H6"; "PH3"; "COF2"; "SF6"; "H2S"; "HCOOH";
   "HO2"; "O"; "ClONO2"; "NO+"; "HOBr"; "C2H4"; "CH3OH"; "CH3Br";
   "CH3CN"; "CF4"; "C4H2"; "HC3N"; "H2"; "CS"; "SO3"].

Definition exomol_list : list string := ["SiO"].

Definition geisa_list : list string := ["C6H6"].

Definition other_list : list string := ["CH3+"; "C3H4"].

(** [x in l] for a list of strings. *)
Definition str_in (x : string) (l : list string) : bool := existsb (String.eqb x) l.

(** [_check_hitran(molecule_name)]: the name of the data base, or
    [None]. *)
Definition _check_hitran (molecule_name : string) : option string :=
  if str_in molecule_name hitran_list then Some "HITRAN"
  else if str_in molecule_name exomol_list then Some "exomol"
  else if str_in molecule_name geisa_list then Some "GEISA"
  else if str_in molecule_name other_list then Some "other"
  else None.

(** *** [get_miri_mrs_resolution] *)

Definition mrs_resolution_w0 : list (string * Q) :=
  [
   ("1A", 4.90); ("1B", 5.66); ("1C", 6.53); ("2A", 7.51);
   ("2B", 8.67); ("2C", 10.02); ("3A", 11.55); ("3B", 13.34);
   ("3C", 15.41); ("4A", 17.70); ("4B", 20.69); ("4C", 24.19)
  ].

Definition mrs_resolution_w1 : list (string * Q) :=
  [
   ("1A", 5.74); ("1B", 6.63); ("1C", 7.65); ("2A", 8.77);
   ("2B", 10.13); ("2C", 11.70); ("3A", 13.47); ("3B", 15.57);
   ("3C", 17.98); ("4A", 20.95); ("4B", 24.48); ("4C", 28.10)
  ].

Definition mrs_resolution_A : list (string * Q) :=
  [
   ("1A", (-19.5)); ("1B", 2742); ("1C", (-543)); ("2A", 332);
   ("2B", (-331)); ("2C", 430); ("3A", (-5120)); ("3B", (-1871));
   ("3C", (-2440)); ("4A", (-2066)); ("4B", (-1076)); ("4C", (-3451))
  ].

Definition mrs_resolution_B : list (string * Q) :=
  [
   ("1A", 572); ("1B", 150); ("1C", 601); ("2A", 400);
   ("2B", 400); ("2C", 264); ("3A", 633); ("3B", 317);
   ("3C", 312); ("4A", 225); ("4B", 150); ("4C", 216)
  ].

(** [np.unique(a)]: the values of [a] in ascending order, each once. *)
Fixpoint unique_insert (x : Q) (l : list Q) : list Q :=
  match l with
  | [] => [x]
  | y :: l' =>
      match x ?= y with
      | Lt => x :: l
      | Eq => l
      | Gt => y :: unique_insert x l'
      end
  end.

Definition np_unique (a : list Q) : list Q := fold_right unique_insert [] a.

(** The index of the value [x] in an array of distinct values, the
    [return_inverse] of [np.unique]. *)
Fixpoint index_of (x : Q) (l : list Q) : nat :=
  match l with
  | [] => 0%nat
  | y :: l' => if Qeq_bool x y then 0%nat else S (index_of x l')
  end.

(** A double that may be [np.inf]: [None] is infinity. *)
Definition minimum_inf (m : option Q) (r : Q) : option Q :=
  match m with
  | None => Some r
  | Some q => Some (Qmin q r)
  end.

Fixpoint update_nth {A : Type} (i : nat) (f : A -> A) (l : list A) : list A :=
  match l, i with
  | [], _ => []
  | x :: l', O => f x :: l'
  | x :: l', S i' => x :: update_nth i' f l'
  end.

(** [np.minimum.at(a, indices, b)]: for each [k] in turn,
    [a[indices[k]] = min(a[indices[k]], b[k])]. *)
Fixpoint minimum_at (a : list (option Q)) (indices : list nat) (b : list Q)
  : list (option Q) :=
  match indices, b with
  | i :: indices', r :: b' =>
      minimum_at (update_nth i (fun m => minimum_inf m r) a) indices' b'
  | _, _ => a
  end.

(** The body of the loop [for band in w0] on the two arrays it
    extends. *)
Definition mrs_resolution_step (wave : list Q) (acc : list Q * list Q) (band : string)
  : outcome (list Q * list Q) :=
  let (total_wave, R) := acc in
  lo <- subscript mrs_resolution_w0 band ;;
  hi <- subscript mrs_resolution_w1 band ;;
  let wave_band := filter (fun w => np.Qlt_bool lo w && Qle_bool w hi) wave in
  A <- subscript mrs_resolution_A band ;;
  B <- subscript mrs_resolution_B band ;;
  let R_band := map (fun w => A + B * w) wave_band in
  Ok (total_wave ++ wave_band, R ++ R_band).

Fixpoint mrs_resolution_loop (wave : list Q) (bands : list string)
  (acc : list Q * list Q) : outcome (list Q * list Q) :=
  match bands with
  | [] => Ok acc
  | band :: bands' =>
      acc' <- mrs_resolution_step wave acc band ;;
      mrs_resolution_loop wave bands' acc'
  end.

(** [get_miri_mrs_resolution(wave)], [wave] being the array
    [np.array(wave, ndmin=1)]: the wavelengths that fall in a sub-band,
    each once and ascending, and the smallest resolving power of the
    sub-bands each falls in. *)
Definition get_miri_mrs_resolution (wave : list Q)
  : outcome (list Q * list (option Q)) :=
  acc <- mrs_resolution_loop wave (map fst mrs_resolution_w0) ([], []) ;;
  let (total_wave, R) := acc in
  let unique_waves := np_unique total_wave in
  let unique_indices := map (fun w => index_of w unique_waves) total_wave in
  let smallest_R := repeat None (length unique_waves) in
  let smallest_R := minimum_at smallest_R unique_indices R in
  Ok (unique_waves, smallest_R).

(** The sub-bands as rows [(w0, w1, A, B)], to state what the loop
    computes. *)
Definition mrs_band_row (name : string) : Q * Q * Q * Q :=
  match dict_get name mrs_resolution_w0, dict_get name mrs_resolution_w1,
        dict_get name mrs_resolution_A, dict_get name mrs_resolution_B with
  | Some lo, Some hi, Some A, Some B => (lo, hi, A, B)
  | _, _, _, _ => (0, 0, 0, 0)
  end.

Definition mrs_band_rows : list (Q * Q * Q * Q) :=
  map mrs_band_row (map fst mrs_resolution_w0).

Definition band_mask (row : Q * Q * Q * Q) (w : Q) : bool :=
  let '(lo, hi, _, _) := row in np.Qlt_bool lo w && Qle_bool w hi.

Definition in_band (row : Q * Q * Q * Q) (w : Q) : Prop :=
  let '(lo, hi, _, _) := row in lo < w /\ w <= hi.

Definition band_R (row : Q * Q * Q * Q) (w : Q) : Q :=
  let '(_, _, A, B) := row in A + B * w.

(** The resolving powers of a result as plain numbers, for handing them
    to [spec_convol_R]; an [np.inf] among them is no finite number. *)
Fixpoint finite_array (a : list (option Q)) : outcome (list Q) :=
  match a with
  | [] => Ok []
  | None :: _ => NotFinite
  | Some r :: a' => rs <- finite_array a' ;; Ok (r :: rs)
  end.

(** No value occurs twice in a list of numbers. *)
Fixpoint distinctb (l : list Z) : bool :=
  match l with
  | [] => true
  | x :: l' => negb (existsb (Z.eqb x) l') && distinctb l'
  end.


(** The pairs of a wavelength and a resolving power that the loop of
    [get_miri_mrs_resolution] collects over the sub-bands [bands], in
    the order of [total_wave] and [R]. *)
Definition mrs_entries (wave : list Q) (bands : list string) : list (Q * Q) :=
  flat_map (fun band =>
              map (fun w => (w, band_R (mrs_band_row band) w))
                  (filter (band_mask (mrs_band_row band)) wave))
           bands.

(** One update of [np.minimum.at] seen from a single place of the
    array: the entries [sel] picks lower the value there. *)
Definition minimum_where (sel : Q * Q -> bool) (m : option Q) (e : Q * Q)
  : option Q :=
  if sel e then minimum_inf m (snd e) else m.

(** The array [z] is the combination [a * x + b * y] of the arrays [x]
    and [y], element by element, as numbers. *)
Inductive combined (a b : Q) : list Q -> list Q -> list Q -> Prop :=
| combined_nil : combined a b [] [] []
| combined_cons (x y z : Q) (xs ys zs : list Q) :
    z == a * x + b * y -> combined a b xs ys zs ->
    combined a b (x :: xs) (y :: ys) (z :: zs).

(** [a * flux1 + b * flux2]. *)
Definition combination (a b : Q) (flux1 flux2 : list Q) : list Q :=
  np.zip_with (fun x y => a * x + b * y) flux1 flux2.

(** ** The line lists of HITRAN *)

(** [x / y] on Python floats: a zero divisor raises. *)
Definition truediv (x y : Q) : outcome Q :=
  if np.is_zero y then Raise ZeroDivisionError else Ok (x / y).

(** [astropy.constants.c.cgs.value], the speed of light in cm/s. *)
Definition c_cgs_value : Q := 29979245800.

(** A list comprehension whose body can raise. *)
Fixpoint map_outcome {A B : Type} (f : A -> outcome B) (l : list A)
  : outcome (list B) :=
  match l with
  | [] => Ok []
  | x :: l' =>
      y <- f x ;;
      ys <- map_outcome f l' ;;
      Ok (y :: ys)
  end.

(** [a & b] on boolean arrays of one length, and [tbl[mask]]. *)
Definition mask_and (a b : list bool) : list bool :=
  map (fun p => andb (fst p) (snd p)) (combine a b).

Definition select_rows {A : Type} (tbl : list A) (mask : list bool) : list A :=
  map fst (filter snd (combine tbl mask)).

(** A row of the returned table: the row of the line list it was made
    from, and the three columns the function adds. *)
Record hitran_row (Line : Type) : Type := mk_hitran_row {
  row_line : Line;
  row_nu : Q;
  row_eup_k : Q;
  row_wave : Q
}.

Arguments mk_hitran_row {Line} row_line row_nu row_eup_k row_wave.
Arguments row_line {Line} h.
Arguments row_nu {Line} h.
Arguments row_eup_k {Line} h.
Arguments row_wave {Line} h.

Section HitranData.

(** astroquery and the unit conversions of astropy are outside of the
    module.  [Line] is a row of the table [Hitran.query_lines] answers
    with, and [col_wn], [col_a], [col_sw], [col_elower] and [col_Vp] read
    its columns by the names they have after the renaming (['nu'] is
    renamed ['wn'], ['global_upper_quanta'] is renamed ['Vp']).
    [query_lines M iso lo hi] is the call
    [Hitran.query_lines(molecule_number=M, isotopologue_number=iso,
    min_frequency=lo / un.cm, max_frequency=hi / un.cm)], [wn_to_k w] is
    [wn_to_k(w / un.cm).value], and [parse_int] is [int] on an entry of
    the column ['Vp'], a [ValueError] when the entry is no integer. *)
Variable Line : Type.
Variable col_wn : Line -> Q.
Variable col_a : Line -> Q.
Variable col_sw : Line -> Q.
Variable col_elower : Line -> Q.
Variable col_Vp : Line -> string.
Variable query_lines : Z -> Z -> Q -> Q -> outcome (list Line).
Variable wn_to_k : Q -> Q.
Variable parse_int : string -> outcome Z.

(** The three added columns: [tbl['nu']], [tbl['eup_k']] and
    [tbl['wave']]. *)
Definition add_columns (tbl : list Line) : outcome (list (hitran_row Line)) :=
  map_outcome
    (fun l =>
       wave <- np.fdiv 1e4 (col_wn l) ;;
       Ok (mk_hitran_row l (col_wn l * c_cgs_value)
             (wn_to_k (col_wn l + col_elower l)) wave))
    tbl.

Definition extract_hitran_data (molecule_name : string) (wavemin wavemax : Q)
  (isotopologue_number : Z) (eupmax aupmin swmin : option Q) (vup : option Z)
  : outcome (list (hitran_row Line)) :=
  M <- get_molecule_identifier molecule_name ;;
  min_wavenumber <- truediv 1e4 wavemax ;;
  max_wavenumber <- truediv 1e4 wavemin ;;
  tbl <- query_lines M isotopologue_number min_wavenumber max_wavenumber ;;
  tbl <- add_columns tbl ;;
  let ebool := repeat true (length tbl) in
  let abool := repeat true (length tbl) in
  let swbool := repeat true (length tbl) in
  let vupbool := repeat true (length tbl) in
  let ebool :=
    match eupmax with
    | Some eupmax => map (fun r => np.Qlt_bool (row_eup_k r) eupmax) tbl
    | None => ebool
    end in
  let abool :=
    match aupmin with
    | Some aupmin => map (fun r => np.Qlt_bool aupmin (col_a (row_line r))) tbl
    | None => abool
    end in
  let swbool :=
    match swmin with
    | Some swmin => map (fun r => np.Qlt_bool swmin (col_sw (row_line r))) tbl
    | None => swbool
    end in
  vupbool <-
    match vup with
    | Some vup =>
        vupval <- map_outcome (fun r => parse_int (col_Vp (row_line r))) tbl ;;
        Ok (map (fun val => Z.eqb val vup) vupval)
    | None => Ok vupbool
    end ;;
  let extractbool := mask_and (mask_and (mask_and abool ebool) swbool) vupbool in
  let hitran_data := select_rows tbl extractbool in
  Ok hitran_data.

End HitranData.

(** Whether a row passes the optional bounds of [extract_hitran_data]. *)
Definition passes {Line : Type} (col_a col_sw : Line -> Q)
  (col_Vp : Line -> string) (parse_int : string -> outcome Z)
  (eupmax aupmin swmin : option Q) (vup : option Z) (r : hitran_row Line)
  : bool :=
  match aupmin with
  | Some x => np.Qlt_bool x (col_a (row_line r))
  | None => true
  end
  && match eupmax with
     | Some x => np.Qlt_bool (row_eup_k r) x
     | None => true
     end
  && match swmin with
     | Some x => np.Qlt_bool x (col_sw (row_line r))
     | None => true
     end
  && match vup with
     | Some v =>
         match parse_int (col_Vp (row_line r)) with
         | Ok val => Z.eqb val v
         | _ => false
         end
     | None => true
     end.

(** A line list to run [extract_hitran_data] on: a line is the tuple
    [(wn, a, sw, elower, Vp)], and the service answers with the lines of
    the list in the queried range. *)
Definition example_lines : list (Q * Q * Q * Q * string) :=
  [(2000, 10, 1, 100, "1"); (2100, 30, 2, 150, "2"); (2500, 20, 3, 50, "1")].

Definition example_wn (l : Q * Q * Q * Q * string) : Q :=
  let '(wn, _, _, _, _) := l in wn.

Definition example_a (l : Q * Q * Q * Q * string) : Q :=
  let '(_, a, _, _, _) := l in a.

Definition example_sw (l : Q * Q * Q * Q * string) : Q :=
  let '(_, _, sw, _, _) := l in sw.

Definition example_elower (l : Q * Q * Q * Q * string) : Q :=
  let '(_, _, _, elower, _) := l in elower.

Definition example_Vp (l : Q * Q * Q * Q * string) : string :=
  let '(_, _, _, _, Vp) := l in Vp.

(** About 1.4388 K for each cm-1. *)
Definition example_wn_to_k (w : Q) : Q := w * 1.4388.

Definition example_query (M iso : Z) (lo hi : Q)
  : outcome (list (Q * Q * Q * Q * string)) :=
  Ok (filter (fun l => Qle_bool lo (example_wn l) && Qle_bool (example_wn l) hi)
             example_lines).

(** [int(x)] on a float: the integer part, towards zero. *)
Definition int_of_float (x : Q) : Z := Z.quot (Qnum x) (Z.pos (Qden x)).

Section HitranPar.

(** The first part of [extract_hitran_from_par], up to [Table(data)], is
    taken as given: [read_par filename] opens the file, or the member of
    the [.zip] archive, prints the line [Reading "..." ...], cuts every
    line into the columns and makes the table of them; an error on the
    way ends the call.  [Line] is a row of that table and
    [col_local_iso_id], [col_wn], [col_sw], [col_a], [col_elower] and
    [col_Vp] read its columns; [wn_to_k w] is [wn_to_k(w / un.cm).value].
    The part modelled is what follows: the added columns and the
    selection of the rows. *)
Variable Line : Type.
Variable col_local_iso_id : Line -> Z.
Variable col_wn : Line -> Q.
Variable col_sw : Line -> Q.
Variable col_a : Line -> Q.
Variable col_elower : Line -> Q.
Variable col_Vp : Line -> Q.
Variable read_par : string -> io (list Line).
Variable wn_to_k : Q -> Q.

Definition extract_hitran_from_par (filename : string)
  (wavemin wavemax : option Q) (isotopologue_number : Z)
  (eupmax aupmin swmin : option Q) (vup : option Z)
  : io (list (hitran_row Line)) :=
  data <-- read_par filename ;;
  lift (
    data <- add_columns Line col_wn col_elower wn_to_k data ;;
    let ebool := repeat true (length data) in
    let abool := repeat true (length data) in
    let swbool := repeat true (length data) in
    let vupbool := repeat true (length data) in
    let waveminbool := repeat true (length data) in
    let wavemaxbool := repeat true (length data) in
    let isobool :=
      map (fun r => Z.eqb (col_local_iso_id (row_line r)) isotopologue_number)
          data in
    let ebool :=
      match eupmax with
      | Some eupmax => map (fun r => np.Qlt_bool (row_eup_k r) eupmax) data
      | None => ebool
      end in
    let abool :=
      match aupmin with
      | Some aupmin => map (fun r => np.Qlt_bool aupmin (col_a (row_line r))) data
      | None => abool
      end in
    let swbool :=
      match swmin with
      | Some swmin => map (fun r => np.Qlt_bool swmin (col_sw (row_line r))) data
      | None => swbool
      end in
    let vupbool :=
      match vup with
      | Some vup =>
          let vupval := map (fun r => int_of_float (col_Vp (row_line r))) data in
          map (fun val => Z.eqb val vup) vupval
      | None => vupbool
      end in
    let waveminbool :=
      match wavemin with
      | Some wavemin => map (fun r => np.Qlt_bool wavemin (row_wave r)) data
      | None => waveminbool
      end in
    let wavemaxbool :=
      match wavemax with
      | Some wavemax => map (fun r => np.Qlt_bool (row_wave r) wavemax) data
      | None => wavemaxbool
      end in
    let extractbool :=
      mask_and
        (mask_and
           (mask_and
              (mask_and (mask_and (mask_and abool ebool) swbool) vupbool)
              waveminbool)
           wavemaxbool)
        isobool in
    let hitran_data := select_rows data extractbool in
    Ok hitran_data).

End HitranPar.

(** Whether a bound that may be left at [None] holds. *)
Definition holds {A : Type} (bound : option A) (test : A -> bool) : bool :=
  match bound with
  | Some x => test x
  | None => true
  end.

(** Whether a row passes the bounds of [extract_hitran_from_par]. *)
Definition passes_par {Line : Type} (col_local_iso_id : Line -> Z)
  (col_sw col_a col_Vp : Line -> Q)
  (wavemin wavemax : option Q) (isotopologue_number : Z)
  (eupmax aupmin swmin : option Q) (vup : option Z) (r : hitran_row Line)
  : bool :=
  holds aupmin (fun x => np.Qlt_bool x (col_a (row_line r)))
  && holds eupmax (fun x => np.Qlt_bool (row_eup_k r) x)
  && holds swmin (fun x => np.Qlt_bool x (col_sw (row_line r)))
  && holds vup (fun v => Z.eqb (int_of_float (col_Vp (row_line r))) v)
  && holds wavemin (fun x => np.Qlt_bool x (row_wave r))
  && holds wavemax (fun x => np.Qlt_bool (row_wave r) x)
  && Z.eqb (col_local_iso_id (row_line r)) isotopologue_number.

(** A parsed file to run [extract_hitran_from_par] on: a line is the
    tuple [(local_iso_id, wn, a)]. *)
Definition example_par : list (Z * Q * Q) :=
  [(1%Z, 2000, 10); (2%Z, 2050, 30); (1%Z, 2100, 20); (1%Z, 2500, 5)].

Definition example_read_par (filename : string) : io (list (Z * Q * Q)) :=
  ([("Reading " ++ dquote ++ filename ++ dquote ++ " ...")%string],
   Ok example_par).

(** * Properties *)

(** ** The outcome monad *)

Lemma bind_Ok_inv {A B : Type} (m : outcome A) (k : A -> outcome B) (b : B) :
  bind m k = Ok b -> exists a, m = Ok a /\ k a = Ok b.
Proof.
  destruct m as [a | e | ]; simpl; intros H; try discriminate.
  exists a; split; [reflexivity | exact H].
Qed.

Lemma fmap_Ok_inv {A B : Type} (f : A -> B) (m : outcome A) (b : B) :
  fmap f m = Ok b -> exists a, m = Ok a /\ b = f a.
Proof.
  unfold fmap; intros H.
  apply bind_Ok_inv in H as (a & Ha & Hb).
  exists a; split; [exact Ha | congruence].
Qed.

(** ** numpy primitives *)

Lemma is_zero_false (x : Q) : ~ x == 0 -> np.is_zero x = false.
Proof.
  intros H; unfold np.is_zero.
  destruct (Qeq_bool x 0) eqn:E; [ | reflexivity].
  apply Qeq_bool_iff in E; contradiction.
Qed.

Lemma is_zero_true (x : Q) : x == 0 -> np.is_zero x = true.
Proof. intros H; unfold np.is_zero; apply Qeq_bool_iff; exact H. Qed.

Lemma div_scalar_Ok (a : list Q) (s : Q) :
  ~ s == 0 -> np.div_scalar a s = Ok (map (fun x => x / s) a).
Proof.
  intros Hs; induction a as [ | x a IH]; simpl; [reflexivity | ].
  unfold np.fdiv; rewrite (is_zero_false s Hs); simpl.
  rewrite IH; reflexivity.
Qed.


Lemma div_scalar_Ok_inv (a r : list Q) (s : Q) :
  np.div_scalar a s = Ok r -> r = map (fun x => x / s) a.
Proof.
  revert r; induction a as [ | x a IH]; simpl; intros r H.
  - congruence.
  - apply bind_Ok_inv in H as (q & Hq & H).
    apply bind_Ok_inv in H as (r' & Hr & H).
    unfold np.fdiv in Hq; destruct (np.is_zero s); [discriminate | ].
    rewrite (IH r' Hr) in H; congruence.
Qed.

Lemma div_elementwise_Ok (a b : list Q) :
  length a = length b -> Forall (fun y => ~ y == 0) b ->
  exists r, np.div_elementwise a b = Ok r /\ length r = length a.
Proof.
  revert b; induction a as [ | x a IH]; intros [ | y b] Hl Hb; simpl in *;
    try discriminate.
  - exists []; split; reflexivity.
  - inversion Hb as [ | ? ? Hy Hb']; subst.
    destruct (IH b) as (r & Hr & Hlen); [congruence | exact Hb' | ].
    unfold np.fdiv; rewrite (is_zero_false y Hy); simpl; rewrite Hr; simpl.
    exists (x / y :: r); split; [reflexivity | simpl; congruence].
Qed.

Lemma min_Ok (a : list Q) : a <> [] -> exists m, np.min a = Ok m.
Proof.
  destruct a as [ | x a]; [contradiction | ].
  intros _; eexists; reflexivity.
Qed.

Lemma fold_min_pos (a : list Q) (x : Q) :
  0 < x -> Forall (fun d => 0 < d) a -> 0 < fold_left Qmin a x.
Proof.
  revert x; induction a as [ | y a IH]; intros x Hx Ha; simpl; [exact Hx | ].
  inversion Ha; subst; apply IH; [ | assumption].
  apply Q.min_glb_lt; assumption.
Qed.

Lemma min_pos (a : list Q) (m : Q) :
  Forall (fun d => 0 < d) a -> np.min a = Ok m -> 0 < m.
Proof.
  destruct a as [ | x a]; simpl; intros Ha H; [discriminate | ].
  inversion Ha; subst; injection H as <-.
  apply fold_min_pos; assumption.
Qed.

Lemma interp_Ok (x xp fp : list Q) :
  xp <> [] -> length xp = length fp ->
  np.interp x xp fp = Ok (map (np.interp1 xp fp) x).
Proof.
  intros Hne Hl; unfold np.interp.
  destruct xp; [contradiction | ].
  rewrite Hl, Nat.eqb_refl; reflexivity.
Qed.

Lemma interp_Ok_inv (x xp fp out : list Q) :
  np.interp x xp fp = Ok out -> out = map (np.interp1 xp fp) x.
Proof.
  unfold np.interp; destruct xp; [discriminate | ].
  destruct (Nat.eqb _ _); [congruence | discriminate].
Qed.


Lemma roll_one (a : list Q) (d : Q) :
  a <> [] -> np.roll a 1 = last a d :: removelast a.
Proof.
  intros Ha; destruct (exists_last Ha) as (l & z & ->).
  rewrite last_last, removelast_last; unfold np.roll.
  rewrite length_app; simpl length.
  destruct l as [ | x l]; [reflexivity | ].
  rewrite Nat.mod_small by (simpl; lia).
  replace (length (x :: l) + 1 - 1)%nat with (length (x :: l)) by lia.
  rewrite skipn_app, firstn_app, Nat.sub_diag, skipn_all, firstn_all.
  simpl; rewrite app_nil_r; reflexivity.
Qed.

Lemma length_roll (a : list Q) (k : nat) : length (np.roll a k) = length a.
Proof.
  unfold np.roll; rewrite length_app, length_skipn, length_firstn; lia.
Qed.

Lemma length_zip_with (f : Q -> Q -> Q) (a b : list Q) :
  length a = length b -> length (np.zip_with f a b) = length a.
Proof.
  revert b; induction a as [ | x a IH]; intros [ | y b] H; simpl in *;
    try discriminate; [reflexivity | ].
  rewrite IH; congruence.
Qed.

Lemma length_dws (wave : list Q) :
  length (np.abs (np.sub wave (np.roll wave 1))) = length wave.
Proof.
  unfold np.abs, np.sub; rewrite length_map, length_zip_with; [reflexivity | ].
  symmetry; apply length_roll.
Qed.

Lemma length_cumsum_from (acc : Q) (a : list Q) :
  length (np.cumsum_from acc a) = length a.
Proof.
  revert acc; induction a as [ | x a IH]; intros acc; simpl; [reflexivity | ].
  rewrite IH; reflexivity.
Qed.

Lemma length_cumsum (a : list Q) : length (np.cumsum a) = length a.
Proof.
  destruct a as [ | x a]; simpl; [reflexivity | ].
  rewrite length_cumsum_from; reflexivity.
Qed.

(** Each partial sum is the one before plus the next element. *)
Lemma cumsum_from_step (acc : Q) (a : list Q) (i : nat) :
  (i < length a)%nat ->
  nth i (np.cumsum_from acc a) 0 ==
  nth i (acc :: np.cumsum_from acc a) 0 + nth i a 0.
Proof.
  revert acc i; induction a as [ | x a IH]; intros acc i Hi; simpl in Hi; [lia | ].
  destruct i as [ | i]; simpl; [reflexivity | ].
  apply IH; lia.
Qed.

Lemma cumsum_step (a : list Q) (i : nat) :
  (1 <= i < length a)%nat ->
  nth i (np.cumsum a) 0 == nth (i - 1) (np.cumsum a) 0 + nth i a 0.
Proof.
  destruct a as [ | x a]; simpl; intros Hi; [lia | ].
  destruct i as [ | i]; [lia | ].
  replace (S i - 1)%nat with i by lia.
  rewrite cumsum_from_step by lia; reflexivity.
Qed.

Lemma convolve_direct_length (b : astropy.boundary) (fill : Q) (a k : list Q) :
  length (astropy.convolve_direct b fill a k) = length a.
Proof. unfold astropy.convolve_direct; rewrite length_map, length_seq; reflexivity. Qed.

Lemma Qlt_bool_false (x y : Q) : y <= x -> np.Qlt_bool x y = false.
Proof.
  intros H; unfold np.Qlt_bool.
  apply Qle_bool_iff in H; rewrite H; reflexivity.
Qed.

Lemma normalize_Ok (k : list Q) :
  1 / 100 <= astropy.kernel_sum k ->
  astropy.normalize k = Ok (map (fun x => x / astropy.kernel_sum k) k).
Proof.
  intros H; unfold astropy.normalize.
  rewrite (Qlt_bool_false _ _ H).
  apply div_scalar_Ok; intros E; rewrite E in H; revert H; apply Qlt_not_le; reflexivity.
Qed.

Lemma convolve_fft_fill_Ok (a k : list Q) :
  1 / 100 <= astropy.kernel_sum k ->
  exists r, astropy.convolve_fft a k true astropy.boundary_fill = Ok r /\
            length r = length a.
Proof.
  intros H; unfold astropy.convolve_fft.
  rewrite (normalize_Ok k H); simpl.
  eexists; split; [reflexivity | apply convolve_direct_length].
Qed.

Lemma convolve_fft_Ok_length (a k r : list Q) (n : bool) (b : astropy.boundary) :
  astropy.convolve_fft a k n b = Ok r -> length r = length a.
Proof.
  unfold astropy.convolve_fft; destruct b; try discriminate; intros H;
    apply bind_Ok_inv in H as (kn & _ & H); injection H as <-;
    apply convolve_direct_length.
Qed.

Lemma nonempty_length {A : Type} (l : list A) : (1 <= length l)%nat -> l <> [].
Proof. destruct l; simpl; [lia | discriminate]. Qed.

Lemma pos_nonzero (x : Q) : 0 < x -> ~ x == 0.
Proof. intros H E; rewrite E in H; revert H; apply Qlt_irrefl. Qed.

Lemma div_resolution_Ok (wave : list Q) (R : resolution) :
  valid_resolution (length wave) R ->
  exists fw, div_resolution wave R = Ok fw /\ length fw = length wave.
Proof.
  destruct R as [r | rs]; simpl.
  - intros Hr; exists (map (fun x => x / r) wave); split.
    + apply div_scalar_Ok, pos_nonzero, Hr.
    + apply length_map.
  - intros [Hl Hpos]; unfold np.div.
    rewrite Hl, Nat.eqb_refl.
    apply div_elementwise_Ok; [congruence | ].
    eapply Forall_impl; [ | exact Hpos].
    intros y Hy; apply pos_nonzero, Hy.
Qed.

Lemma max2_ge_two (x : Q) : 2 <= np.max2 2 x.
Proof. unfold np.max2; apply Q.le_max_l. Qed.

Lemma max2_nonzero (x : Q) : ~ np.max2 2 x == 0.
Proof.
  intros E; pose proof (max2_ge_two x) as H; rewrite E in H.
  revert H; apply Qlt_not_le; reflexivity.
Qed.

Lemma fdiv_sigma (x : Q) : np.fdiv x 2.3548 = Ok (x / 2.3548).
Proof. reflexivity. Qed.

(** ** The two convolvers, step by step *)

Section ConvolverFacts.

Variable K : Q -> list Q.

(** [spec_convol] is [spec_convol_R] behind the conversion of the
    velocity width into a resolving power. *)
Lemma spec_convol_locals_unfold (wave flux : list Q) (dv : Q) :
  spec_convol_locals K wave flux dv =
  if np.is_zero (dv * 1e3) then Raise ZeroDivisionError
  else spec_convol_R_locals K wave flux (Scalar (c_value / (dv * 1e3))).
Proof.
  unfold spec_convol_locals, spec_convol_R_locals.
  destruct (np.is_zero (dv * 1e3)); reflexivity.
Qed.

(** What the local variables are when the function reaches its
    [return]. *)
Lemma spec_convol_R_locals_inv (wave flux : list Q) (R : resolution)
  (fr : convol_locals) :
  spec_convol_R_locals K wave flux R = Ok fr ->
  exists sampling wave_min,
    dws fr = np.abs (np.sub wave (np.roll wave 1)) /\
    np.min (dws fr) = Ok (dw_min fr) /\
    div_resolution wave R = Ok (fwhm fr) /\
    np.div_scalar (fwhm fr) (dw_min fr) = Ok sampling /\
    np.min sampling = Ok (fwhm_s_min fr) /\
    fwhm_s fr = np.max2 2 (fwhm_s_min fr) /\
    np.div_scalar (fwhm fr) (fwhm_s fr) = Ok (ds fr) /\
    np.min wave = Ok wave_min /\
    wave_constfwhm fr = np.add_scalar (np.cumsum (ds fr)) wave_min /\
    np.interp (wave_constfwhm fr) wave flux = Ok (flux_constfwhm fr) /\
    np.fdiv (fwhm_s fr) 2.3548 = Ok (sigma_s fr) /\
    g fr = K (sigma_s fr) /\
    astropy.convolve_fft (flux_constfwhm fr) (g fr) true astropy.boundary_fill
      = Ok (flux_conv fr) /\
    np.interp wave (wave_constfwhm fr) (flux_conv fr) = Ok (flux_oldsampling fr).
Proof.
  unfold spec_convol_R_locals; intros H.
  apply bind_Ok_inv in H as (dwm & Hdwm & H).
  apply bind_Ok_inv in H as (fw & Hfw & H).
  apply bind_Ok_inv in H as (sampling & Hsa & H).
  apply bind_Ok_inv in H as (fs & Hfs & H).
  apply bind_Ok_inv in H as (dss & Hds & H).
  apply bind_Ok_inv in H as (wm & Hwm & H).
  apply bind_Ok_inv in H as (fc & Hfc & H).
  apply bind_Ok_inv in H as (sg & Hsg & H).
  apply bind_Ok_inv in H as (cv & Hcv & H).
  apply bind_Ok_inv in H as (fo & Hfo & H).
  injection H as <-; simpl.
  exists sampling, wm; repeat split; assumption.
Qed.

(** The function reaches its [return] whenever no two neighbouring
    wavelengths coincide, the flux has the length of the wavelengths,
    the resolving power is positive and the kernel can be normalised. *)
Lemma spec_convol_R_locals_Ok (wave flux : list Q) (R : resolution) :
  wave <> [] ->
  length wave = length flux ->
  positive_spacing wave ->
  valid_resolution (length wave) R ->
  normalizable K ->
  exists fr, spec_convol_R_locals K wave flux R = Ok fr.
Proof.
  intros Hne Hlen Hpos HR HK.
  assert (Hn : (1 <= length wave)%nat).
  { destruct wave; [contradiction | simpl; lia]. }
  unfold spec_convol_R_locals.
  destruct (min_Ok (np.abs (np.sub wave (np.roll wave 1)))) as (dwm & Hdwm).
  { apply nonempty_length; rewrite length_dws; exact Hn. }
  rewrite Hdwm; cbn [bind].
  destruct (div_resolution_Ok wave R HR) as (fw & Hfw & Hfwl).
  rewrite Hfw; cbn [bind].
  assert (Hdpos : 0 < dwm) by (eapply min_pos; [exact Hpos | exact Hdwm]).
  rewrite (div_scalar_Ok fw dwm (pos_nonzero dwm Hdpos)).
  cbn [bind].
  destruct (min_Ok (map (fun x => x / dwm) fw)) as (fs & Hfs).
  { apply nonempty_length; rewrite length_map, Hfwl; exact Hn. }
  rewrite Hfs; cbn [bind].
  rewrite (div_scalar_Ok fw _ (max2_nonzero fs)); cbn [bind].
  destruct (min_Ok wave Hne) as (wm & Hwm).
  rewrite Hwm; cbn [bind].
  rewrite (interp_Ok _ wave flux Hne Hlen); cbn [bind].
  rewrite fdiv_sigma; cbn [bind].
  match goal with
  | |- context [astropy.convolve_fft ?a ?k true astropy.boundary_fill] =>
      destruct (convolve_fft_fill_Ok a k (HK _)) as (cv & Hcv & Hcvl);
      rewrite Hcv; cbn [bind]
  end.
  rewrite interp_Ok; cbn [bind].
  - eexists; reflexivity.
  - apply nonempty_length.
    unfold np.add_scalar; rewrite length_map, length_cumsum, length_map, Hfwl.
    exact Hn.
  - rewrite Hcvl, length_map; reflexivity.
Qed.

End ConvolverFacts.

(** ** Spacings of an ascending wavelength array *)

Lemma zip_sub_removelast (a : Q) (t : list Q) :
  map Qabs (np.zip_with Qminus t (removelast (a :: t))) = consecutive_spacings (a :: t).
Proof.
  revert a; induction t as [ | b t IH]; intros a; [reflexivity | ].
  change (removelast (a :: b :: t)) with (a :: removelast (b :: t)).
  change (consecutive_spacings (a :: b :: t))
    with (Qabs (b - a) :: consecutive_spacings (b :: t)).
  cbn [np.zip_with map]; rewrite IH; reflexivity.
Qed.

(** The circular differences are the wrap-around term followed by the
    consecutive differences. *)
Lemma dws_cons (a : Q) (t : list Q) :
  np.abs (np.sub (a :: t) (np.roll (a :: t) 1)) =
  Qabs (a - last (a :: t) 0) :: consecutive_spacings (a :: t).
Proof.
  rewrite (roll_one (a :: t) 0) by discriminate.
  unfold np.abs, np.sub; cbn [np.zip_with map].
  rewrite zip_sub_removelast; reflexivity.
Qed.

Lemma increasing_le_last (b d : Q) (t : list Q) :
  strictly_increasing (b :: t) -> b <= last (b :: t) d.
Proof.
  revert b; induction t as [ | c t IH]; intros b H.
  - simpl; apply Qle_refl.
  - destruct H as [Hbc Ht].
    change (last (b :: c :: t) d) with (last (c :: t) d).
    apply Qle_trans with c; [apply Qlt_le_weak, Hbc | apply IH, Ht].
Qed.

Lemma increasing_spacings_pos (w : list Q) :
  strictly_increasing w -> Forall (fun d => 0 < d) (consecutive_spacings w).
Proof.
  induction w as [ | a [ | b t] IH]; intros H; try constructor.
  - destruct H as [Hab _].
    apply Qlt_le_trans with (b - a); [lra | apply Qle_Qabs].
  - apply IH, H.
Qed.

Lemma increasing_positive_spacing (wave : list Q) :
  (2 <= length wave)%nat -> strictly_increasing wave -> positive_spacing wave.
Proof.
  destruct wave as [ | a [ | b t]]; simpl length; intros Hn H; try lia.
  unfold positive_spacing; rewrite dws_cons; constructor.
  - destruct H as [Hab Ht].
    pose proof (increasing_le_last b 0 t Ht) as Hl.
    change (last (a :: b :: t) 0) with (last (b :: t) 0).
    rewrite <- Qabs_opp.
    apply Qlt_le_trans with (- (a - last (b :: t) 0)); [lra | apply Qle_Qabs].
  - apply increasing_spacings_pos, H.
Qed.

Lemma fold_min_compat (l : list Q) (x y : Q) :
  x == y -> fold_left Qmin l x == fold_left Qmin l y.
Proof.
  revert x y; induction l as [ | z l IH]; intros x y E; simpl; [exact E | ].
  apply IH; rewrite E; reflexivity.
Qed.

(** ** The convolver on valid input *)

Lemma kernel_121_normalizable : normalizable kernel_121.
Proof. intros sigma; vm_compute; discriminate. Qed.

Lemma dv_nonzero (dv : Q) : 0 < dv -> np.is_zero (dv * 1e3) = false.
Proof.
  intros H; apply is_zero_false; intros E.
  change 1e3 with (1 * 1000) in E; lra.
Qed.

Lemma dv_resolution (n : nat) (dv : Q) :
  0 < dv -> valid_resolution n (Scalar (c_value / (dv * 1e3))).
Proof.
  intros H; simpl; unfold c_value.
  change 1e3 with (1 * 1000).
  apply Qlt_shift_div_l; lra.
Qed.

Lemma on_input_grid_of_locals (K : Q -> list Q) (wave flux : list Q)
  (R : resolution) (fr : convol_locals) :
  spec_convol_R_locals K wave flux R = Ok fr ->
  on_input_grid wave (flux_oldsampling fr) fr.
Proof.
  intros H; apply spec_convol_R_locals_inv in H as (sa & wm & H).
  destruct H as (_ & _ & _ & _ & _ & _ & _ & _ & _ & _ & _ & _ & _ & Hout).
  apply interp_Ok_inv in Hout.
  repeat split; [ | exact Hout].
  rewrite Hout at 1; apply length_map.
Qed.

(** Whatever the input, a flux that is returned has the length of the
    wavelength array. *)
Lemma spec_convol_R_length (K : Q -> list Q) (wave flux out : list Q)
  (R : resolution) :
  spec_convol_R K wave flux R = Ok out -> length out = length wave.
Proof.
  unfold spec_convol_R; intros H.
  apply fmap_Ok_inv in H as (fr & Hfr & ->).
  eapply on_input_grid_of_locals, Hfr.
Qed.

Lemma spec_convol_length (K : Q -> list Q) (wave flux out : list Q) (dv : Q) :
  spec_convol K wave flux dv = Ok out -> length out = length wave.
Proof.
  unfold spec_convol; intros H.
  apply fmap_Ok_inv in H as (fr & Hfr & ->).
  rewrite spec_convol_locals_unfold in Hfr.
  destruct (np.is_zero (dv * 1e3)); [discriminate | ].
  eapply on_input_grid_of_locals, Hfr.
Qed.



(** C6.  For every positive velocity width [dv], [spec_convol] with
    [dv] is [spec_convol_R] with the constant resolving power
    [c / (dv * 1e3)]: on every wavelength and flux array the two calls
    end the same way, with the same flux.  [spec_convol_R], taking a
    scalar or an array, covers both entry points. *)
Theorem spec_convol_is_spec_convol_R (K : Q -> list Q) (wave flux : list Q) (dv : Q) :
  0 < dv ->
  spec_convol K wave flux dv =
  spec_convol_R K wave flux (Scalar (c_value / (dv * 1e3))).
Proof.
  intros Hdv; unfold spec_convol, spec_convol_R.
  rewrite spec_convol_locals_unfold, (dv_nonzero dv Hdv); reflexivity.
Qed.

Lemma spec_convol_is_spec_convol_R_witness :
  spec_convol kernel_121 [1; 2; 3] [5; 7; 6] 100 =
  spec_convol_R kernel_121 [1; 2; 3] [5; 7; 6] (Scalar (c_value / (100 * 1e3))).
Proof.
  apply (spec_convol_is_spec_convol_R kernel_121 [1; 2; 3] [5; 7; 6] 100).
  reflexivity.
Defined.

(** ** The sampling factor and the resampled grid *)


Lemma nth_add_scalar (a : list Q) (s : Q) (i : nat) :
  (i < length a)%nat -> nth i (np.add_scalar a s) 0 = nth i a 0 + s.
Proof.
  intros Hi; unfold np.add_scalar.
  rewrite (nth_indep _ 0 (0 + s)) by (rewrite length_map; exact Hi).
  apply (map_nth (fun x => x + s)).
Qed.

Lemma nth_div_scalar (a : list Q) (s : Q) (i : nat) :
  (i < length a)%nat -> nth i (map (fun x => x / s) a) 0 = nth i a 0 / s.
Proof.
  intros Hi.
  rewrite (nth_indep _ 0 (0 / s)) by (rewrite length_map; exact Hi).
  apply (map_nth (fun x => x / s)).
Qed.

Lemma grid_of_locals (K : Q -> list Q) (wave flux : list Q)
  (R : resolution) (fr : convol_locals) (wave_min : Q) :
  spec_convol_R_locals K wave flux R = Ok fr ->
  length (fwhm fr) = length wave ->
  (1 <= length wave)%nat ->
  np.min wave = Ok wave_min ->
  grid_by_cumulative_sum (length wave) wave_min fr.
Proof.
  intros H Hfl Hn Hwm; apply spec_convol_R_locals_inv in H as (sa & wm & H).
  destruct H as (_ & _ & _ & _ & _ & _ & Hds & Hwm' & Hgrid & _).
  rewrite Hwm in Hwm'; injection Hwm' as <-.
  apply div_scalar_Ok_inv in Hds.
  assert (Hdl : length (ds fr) = length wave) by (rewrite Hds, length_map; exact Hfl).
  unfold grid_by_cumulative_sum; rewrite Hgrid; repeat split.
  - unfold np.add_scalar; rewrite length_map, length_cumsum; exact Hdl.
  - rewrite nth_add_scalar by (rewrite length_cumsum; lia).
    destruct (ds fr) as [ | x l]; [simpl in Hdl; lia | simpl; lra].
  - intros i Hi.
    rewrite !nth_add_scalar by (rewrite length_cumsum; lia).
    rewrite cumsum_step by lia; lra.
  - intros i Hi; rewrite Hds at 1.
    rewrite nth_div_scalar by lia; reflexivity.
Qed.

Lemma fwhm_length (K : Q -> list Q) (wave flux : list Q)
  (R : resolution) (fr : convol_locals) :
  valid_resolution (length wave) R ->
  spec_convol_R_locals K wave flux R = Ok fr ->
  length (fwhm fr) = length wave.
Proof.
  intros HR H; apply spec_convol_R_locals_inv in H as (sa & wm & H).
  destruct H as (_ & _ & Hfw & _).
  destruct (div_resolution_Ok wave R HR) as (fw & Hfw' & Hl).
  rewrite Hfw in Hfw'; injection Hfw' as ->; exact Hl.
Qed.



(** C2, as the code has it.  On valid input the resampled grid of
    both functions is [np.cumsum(ds) + np.min(wave)]: its first point
    is [min(wave) + ds[0]], one step above the minimum wavelength, and
    [grid[i] = grid[i-1] + ds[i]] for [i >= 1], with
    [ds[i] = fwhm[i] / fwhm_s]. *)
Theorem resampled_grid_recurrence (K : Q -> list Q) (wave flux : list Q)
  (R : resolution) (dv : Q) :
  length wave = length flux ->
  (2 <= length wave)%nat ->
  strictly_increasing wave ->
  valid_resolution (length wave) R ->
  0 < dv ->
  normalizable K ->
  exists wave_min,
    np.min wave = Ok wave_min /\
    (exists fr, spec_convol_R_locals K wave flux R = Ok fr /\
                grid_by_cumulative_sum (length wave) wave_min fr) /\
    (exists fr, spec_convol_locals K wave flux dv = Ok fr /\
                grid_by_cumulative_sum (length wave) wave_min fr).
Proof.
  intros Hlen Hn Hinc HR Hdv HK.
  assert (Hne : wave <> []) by (apply nonempty_length; lia).
  pose proof (increasing_positive_spacing wave Hn Hinc) as Hpos.
  destruct (min_Ok wave Hne) as (wm & Hwm).
  exists wm; split; [exact Hwm | split].
  - destruct (spec_convol_R_locals_Ok K wave flux R Hne Hlen Hpos HR HK)
      as (fr & Hfr).
    exists fr; split; [exact Hfr | ].
    eapply grid_of_locals; [exact Hfr | | lia | exact Hwm].
    eapply fwhm_length; [exact HR | exact Hfr].
  - pose proof (dv_resolution (length wave) dv Hdv) as HR'.
    destruct (spec_convol_R_locals_Ok K wave flux _ Hne Hlen Hpos HR' HK)
      as (fr & Hfr).
    exists fr; split.
    + rewrite spec_convol_locals_unfold, (dv_nonzero dv Hdv); exact Hfr.
    + eapply grid_of_locals; [exact Hfr | | lia | exact Hwm].
      eapply fwhm_length; [exact HR' | exact Hfr].
Qed.

Lemma resampled_grid_recurrence_witness :
  exists wave_min,
    np.min [1; 2; 3] = Ok wave_min /\
    (exists fr, spec_convol_R_locals kernel_121 [1; 2; 3] [5; 7; 6] (Scalar 1)
                = Ok fr /\
                grid_by_cumulative_sum 3 wave_min fr) /\
    (exists fr, spec_convol_locals kernel_121 [1; 2; 3] [5; 7; 6] 1 = Ok fr /\
                grid_by_cumulative_sum 3 wave_min fr).
Proof.
  apply (resampled_grid_recurrence kernel_121 [1; 2; 3] [5; 7; 6] (Scalar 1) 1).
  - reflexivity.
  - simpl; lia.
  - simpl; repeat split; reflexivity.
  - simpl; reflexivity.
  - reflexivity.
  - exact kernel_121_normalizable.
Defined.

(** C2, as the specification words it, fails: for the wavelengths
    [1, 2] at resolving power one the first point of the resampled grid
    is [3/2], not the minimum wavelength [1]. *)
Lemma grid_first_point_counterexample :
  ~ (forall fr wave_min,
       spec_convol_R_locals kernel_121 [1; 2] [1; 1] (Scalar 1) = Ok fr ->
       np.min [1; 2] = Ok wave_min ->
       nth 0 (wave_constfwhm fr) 0 == wave_min).
Proof.
  intros H.
  destruct (spec_convol_R_locals kernel_121 [1; 2] [1; 1] (Scalar 1))
    as [fr | e | ] eqn:E; try (vm_compute in E; discriminate).
  specialize (H fr 1 eq_refl eq_refl).
  vm_compute in E; injection E as <-.
  vm_compute in H; discriminate.
Qed.

(** ** The minimum spacing *)

Lemma dw_min_reference_locals (K : Q -> list Q) (wave flux : list Q)
  (R : resolution) (fr : convol_locals) :
  spec_convol_R_locals K wave flux R = Ok fr ->
  dw_min_reference wave = Ok (dw_min fr).
Proof.
  intros H; apply spec_convol_R_locals_inv in H as (sa & wm & H).
  destruct H as (Hdws & Hmin & _).
  unfold dw_min_reference; rewrite <- Hdws; exact Hmin.
Qed.

(** C5.  For a strictly ascending wavelength array of two or more
    points the minimum over the circular differences, as the source
    computes it with [np.roll], equals the minimum over the consecutive
    differences [|wave[i] - wave[i-1]|], [i = 1 .. n-1]: the wrap-around
    term [|wave[0] - wave[-1]|] is never below the first consecutive
    difference.  The [dw_min] of every finished call of the convolver is
    that minimum. *)
Theorem dw_min_without_wrap_around (wave : list Q) :
  (2 <= length wave)%nat ->
  strictly_increasing wave ->
  exists a b,
    dw_min_reference wave = Ok a /\
    dw_min_consecutive wave = Ok b /\
    a == b /\
    (forall K flux R fr,
       spec_convol_R_locals K wave flux R = Ok fr -> dw_min fr == b) /\
    (forall K flux dv fr,
       spec_convol_locals K wave flux dv = Ok fr -> dw_min fr == b).
Proof.
  destruct wave as [ | x [ | y t]]; simpl length; intros Hn Hinc; try lia.
  assert (Hwrap : Qabs (y - x) <= Qabs (x - last (x :: y :: t) 0)).
  { destruct Hinc as [Hxy Ht].
    pose proof (increasing_le_last y 0 t Ht) as Hl.
    change (last (x :: y :: t) 0) with (last (y :: t) 0).
    rewrite (Qabs_pos (y - x)) by lra.
    rewrite <- (Qabs_opp (x - last (y :: t) 0)).
    rewrite Qabs_pos; lra. }
  assert (Href : dw_min_reference (x :: y :: t) =
                 Ok (fold_left Qmin (consecutive_spacings (y :: t))
                       (Qmin (Qabs (x - last (x :: y :: t) 0)) (Qabs (y - x))))).
  { unfold dw_min_reference; rewrite dws_cons; reflexivity. }
  assert (Heq : fold_left Qmin (consecutive_spacings (y :: t))
                  (Qmin (Qabs (x - last (x :: y :: t) 0)) (Qabs (y - x)))
                == fold_left Qmin (consecutive_spacings (y :: t)) (Qabs (y - x))).
  { apply fold_min_compat, Q.min_r, Hwrap. }
  eexists; eexists; split; [exact Href | split; [reflexivity | ]].
  split; [exact Heq | split].
  - intros K flux R fr Hfr.
    apply dw_min_reference_locals in Hfr.
    rewrite Href in Hfr; injection Hfr as <-; exact Heq.
  - intros K flux dv fr Hfr.
    rewrite spec_convol_locals_unfold in Hfr.
    destruct (np.is_zero (dv * 1e3)); [discriminate | ].
    apply dw_min_reference_locals in Hfr.
    rewrite Href in Hfr; injection Hfr as <-; exact Heq.
Qed.

Lemma dw_min_without_wrap_around_witness :
  exists a b,
    dw_min_reference [1; 3; 4; 8] = Ok a /\
    dw_min_consecutive [1; 3; 4; 8] = Ok b /\
    a == b /\
    (forall K flux R fr,
       spec_convol_R_locals K [1; 3; 4; 8] flux R = Ok fr -> dw_min fr == b) /\
    (forall K flux dv fr,
       spec_convol_locals K [1; 3; 4; 8] flux dv = Ok fr -> dw_min fr == b).
Proof.
  apply (dw_min_without_wrap_around [1; 3; 4; 8]).
  - simpl; lia.
  - simpl; repeat split; reflexivity.
Defined.

(** ** Table lookups *)

Lemma dict_get_None {V : Type} (key : string) (d : list (string * V)) :
  ~ In key (map fst d) -> dict_get key d = None.
Proof.
  induction d as [ | [k v] d IH]; simpl; intros H; [reflexivity | ].
  rewrite IH by tauto.
  destruct (String.eqb_spec key k) as [-> | Hne]; [ | reflexivity].
  exfalso; apply H; left; reflexivity.
Qed.

Lemma subscript_unknown {V : Type} (key : string) (d : list (string * V)) :
  ~ In key (map fst d) -> subscript d key = Raise KeyError.
Proof. intros H; unfold subscript; rewrite (dict_get_None key d H); reflexivity. Qed.

Lemma invert_keys (d : list (string * string)) : map fst (invert d) = map snd d.
Proof. unfold invert; rewrite map_map; reflexivity. Qed.

Lemma not_In_of_existsb (key : string) (l : list string) :
  existsb (String.eqb key) l = false -> ~ In key l.
Proof.
  intros H Hin.
  assert (E : existsb (String.eqb key) l = true).
  { apply existsb_exists; exists key; split; [exact Hin | apply String.eqb_refl]. }
  congruence.
Qed.

(** C7.  [get_molecule_identifier("CO")] returns [5];
    [get_molmass("H2O", isotopologue_number=1)] returns [18.010565];
    for a molecule name that is not in its table, ["XYZ"] among them,
    each of the two functions raises [KeyError], a lookup error, and
    returns no default. *)
Theorem identifier_and_mass_lookup :
  get_molecule_identifier "CO" = Ok 5%Z /\
  get_molmass "H2O" 1 = Ok 18.010565 /\
  get_molecule_identifier "XYZ" = Raise KeyError /\
  get_molmass "XYZ" 1 = Raise KeyError /\
  is_LookupError KeyError = true /\
  (forall name,
     ~ In name (map snd molecule_identifier_trans) ->
     get_molecule_identifier name = Raise KeyError) /\
  (forall name iso,
     ~ In (name ++ "_" ++ str iso)%string (map fst molmass_mass) ->
     get_molmass name iso = Raise KeyError).
Proof.
  do 5 (split; [reflexivity | ]); split.
  - intros name H; unfold get_molecule_identifier.
    rewrite subscript_unknown; [reflexivity | ].
    rewrite invert_keys; exact H.
  - intros name iso H; unfold get_molmass.
    apply subscript_unknown, H.
Qed.

Lemma identifier_and_mass_lookup_witness :
  get_molecule_identifier "SiO" = Raise KeyError /\
  get_molmass "CO" 7 = Raise KeyError.
Proof.
  destruct identifier_and_mass_lookup as (_ & _ & _ & _ & _ & Hid & Hmass).
  split.
  - apply (Hid "SiO"), not_In_of_existsb; reflexivity.
  - apply (Hmass "CO" 7%Z), not_In_of_existsb; reflexivity.
Defined.

(** C8, as the code has it.  An unknown molecule/isotopologue
    combination makes [get_global_identifier] print a message and raise
    [KeyError] and makes [get_molmass] raise [KeyError]: lookup errors
    that reach the caller.  An unknown sub-band name makes
    [get_miri_mrs_wavelengths] catch the [KeyError], print a message and
    call [sys.exit(1)]: the caller gets [SystemExit], not a lookup
    error. *)
Theorem unknown_key_lookup :
  (forall name iso,
     ~ In (name ++ "_" ++ str iso)%string (map fst global_identifier_trans) ->
     get_global_identifier name iso =
     ([("The molecule/isot combination  " ++ (name ++ "_" ++ str iso)
         ++ "  is not in HITRAN and not covered by this code.")%string],
      Raise KeyError)) /\
  (forall name iso,
     ~ In (name ++ "_" ++ str iso)%string (map fst molmass_mass) ->
     get_molmass name iso = Raise KeyError) /\
  is_LookupError KeyError = true /\
  (forall subband,
     ~ In subband (map fst mrs_wavelengths_w0) ->
     get_miri_mrs_wavelengths subband =
     (["KeyError: Please provide a valid sub-band."], Raise (SystemExit 1))).
Proof.
  split; [ | split; [ | split; [reflexivity | ]]].
  - intros name iso H; unfold get_global_identifier.
    rewrite (subscript_unknown _ _ H); reflexivity.
  - intros name iso H; unfold get_molmass; apply subscript_unknown, H.
  - intros subband H; unfold get_miri_mrs_wavelengths.
    rewrite (subscript_unknown _ _ H); reflexivity.
Qed.

Lemma unknown_key_lookup_witness :
  snd (get_global_identifier "XYZ" 1) = Raise KeyError /\
  get_molmass "XYZ" 1 = Raise KeyError /\
  snd (get_miri_mrs_wavelengths "5A") = Raise (SystemExit 1).
Proof.
  destruct unknown_key_lookup as (Hglobal & Hmass & _ & Hband).
  split; [ | split].
  - rewrite (Hglobal "XYZ" 1%Z); [reflexivity | ].
    apply not_In_of_existsb; reflexivity.
  - apply (Hmass "XYZ" 1%Z), not_In_of_existsb; reflexivity.
  - rewrite (Hband "5A"); [reflexivity | ].
    apply not_In_of_existsb; reflexivity.
Defined.

(** C8, as the specification words it, fails on the sub-band table: the
    name ["5A"] is not a sub-band, and the call ends in [SystemExit(1)],
    which is no lookup error. *)
Lemma unknown_subband_counterexample :
  ~ In "5A" (map fst mrs_wavelengths_w0) /\
  ~ (exists e, snd (get_miri_mrs_wavelengths "5A") = Raise e /\
               is_LookupError e = true).
Proof.
  split.
  - apply not_In_of_existsb; reflexivity.
  - intros (e & He & Hl).
    vm_compute in He; injection He as <-; discriminate.
Qed.

(** ** Degenerate input of the convolver *)

Section Degenerate.

Variable K : Q -> list Q.





End Degenerate.




(** ** The boundary of the convolution *)

(** With ['fill'] and the default fill value every sample outside of
    the array is read as zero. *)
Lemma sample_fill_outside (a : list Q) (t : Z) :
  (t < 0 \/ Z.of_nat (length a) <= t)%Z ->
  astropy.sample astropy.boundary_fill 0 a t = 0.
Proof.
  intros H; unfold astropy.sample.
  destruct (Z.leb_spec 0 t); destruct (Z.ltb_spec t (Z.of_nat (length a)));
    simpl; try reflexivity; lia.
Qed.

(** In every finished call the convolved flux is the convolution sum
    with the normalised kernel in which the samples outside of the
    resampled flux are zeros. *)
Lemma flux_conv_zero_filled (K : Q -> list Q) (wave flux : list Q)
  (R : resolution) (fr : convol_locals) :
  spec_convol_R_locals K wave flux R = Ok fr ->
  exists kn,
    astropy.normalize (g fr) = Ok kn /\
    flux_conv fr =
    astropy.convolve_direct astropy.boundary_fill 0 (flux_constfwhm fr) kn.
Proof.
  intros H; apply spec_convol_R_locals_inv in H as (sa & wm & H).
  destruct H as (_ & _ & _ & _ & _ & _ & _ & _ & _ & _ & _ & _ & Hcv & _).
  unfold astropy.convolve_fft in Hcv.
  apply bind_Ok_inv in Hcv as (kn & Hkn & Hcv).
  exists kn; split; [exact Hkn | congruence].
Qed.

(** C4 does not hold of the code.  Both functions call [convolve_fft]
    with [boundary='fill'] (the comment above the call speaks of
    ['extend']), so the samples beyond the ends are zeros.  On the flat
    spectrum of flux one over the wavelengths [1, 2, 3, 4] the resampled
    flux is flat, and the convolved flux drops to [3/4] at both ends;
    reading the nearest edge value instead would leave it at one. *)
Theorem edge_samples_are_zero_filled :
  (exists fr,
     spec_convol_R_locals kernel_121 [1; 2; 3; 4] [1; 1; 1; 1] (Scalar 1) = Ok fr /\
     map Qred (flux_constfwhm fr) = [1; 1; 1; 1] /\
     map Qred (flux_conv fr) = [3 # 4; 1; 1; 3 # 4] /\
     map Qred (flux_oldsampling fr) = [3 # 4; 7 # 8; 1; 1] /\
     map Qred (astropy.convolve_direct astropy.boundary_extend 0
                 (flux_constfwhm fr) [1 # 4; 1 # 2; 1 # 4]) = [1; 1; 1; 1]) /\
  (exists fr,
     spec_convol_locals kernel_121 [1; 2; 3; 4] [1; 1; 1; 1] 299792.458 = Ok fr /\
     map Qred (flux_constfwhm fr) = [1; 1; 1; 1] /\
     map Qred (flux_conv fr) = [3 # 4; 1; 1; 3 # 4] /\
     map Qred (flux_oldsampling fr) = [3 # 4; 7 # 8; 1; 1]).
Proof.
  split; eexists; (split; [vm_compute; reflexivity | ]);
    repeat split; vm_compute; reflexivity.
Qed.

(** ** [extract_hitran_ch3p] with the default bounds *)

Section CH3pFacts.

Variable DataFrame : Type.
Variable Mask : Type.
Variable read_fwf : string -> outcome DataFrame.
Variable derive_columns : DataFrame -> outcome DataFrame.
Variable wave_gt : DataFrame -> Q -> Mask.
Variable wave_lt : DataFrame -> Q -> Mask.
Variable mask_and : Mask -> Mask -> Mask.
Variable select : DataFrame -> Mask -> DataFrame.

(** With both bounds given the two masks are bound and the filtered
    table is returned. *)
Lemma extract_hitran_ch3p_both_bounds (filename : string) (lo hi : Q)
  (t t' : DataFrame) :
  read_fwf filename = Ok t ->
  derive_columns t = Ok t' ->
  snd (extract_hitran_ch3p DataFrame Mask read_fwf derive_columns
         wave_gt wave_lt mask_and select filename (Some lo) (Some hi)) =
  Ok (select t' (mask_and (wave_gt t' lo) (wave_lt t' hi))).
Proof.
  intros Hr Hd; unfold extract_hitran_ch3p; simpl.
  rewrite Hr; simpl; rewrite Hd; reflexivity.
Qed.

(** With only the lower bound given it is the second mask that is
    unbound. *)
Lemma extract_hitran_ch3p_lower_bound_only (filename : string) (lo : Q)
  (t t' : DataFrame) :
  read_fwf filename = Ok t ->
  derive_columns t = Ok t' ->
  snd (extract_hitran_ch3p DataFrame Mask read_fwf derive_columns
         wave_gt wave_lt mask_and select filename (Some lo) None) = Raise (UnboundLocalError "wavemaxbool").
Proof.
  intros Hr Hd; unfold extract_hitran_ch3p; simpl.
  rewrite Hr; simpl; rewrite Hd; reflexivity.
Qed.

(** C10.  Called with [wavemin] and [wavemax] left at [None],
    [extract_hitran_ch3p] never returns a table, filtered or not: once
    the file is read and the columns are added, [waveminbool] is read
    without ever having been assigned and the call ends in
    [UnboundLocalError], an undefined-name error.  (If reading the file
    or adding the columns fails, that error ends the call before.) *)
Theorem extract_hitran_ch3p_defaults (filename : string) :
  (forall t, snd (extract_hitran_ch3p DataFrame Mask read_fwf derive_columns
         wave_gt wave_lt mask_and select filename None None) <> Ok t) /\
  (forall t t',
     read_fwf filename = Ok t ->
     derive_columns t = Ok t' ->
     snd (extract_hitran_ch3p DataFrame Mask read_fwf derive_columns
         wave_gt wave_lt mask_and select filename None None) = Raise (UnboundLocalError "waveminbool")) /\
  is_NameError (UnboundLocalError "waveminbool") = true.
Proof.
  unfold extract_hitran_ch3p; simpl.
  split; [ | split; [ | reflexivity]].
  - intros t.
    destruct (read_fwf filename) as [d | e | ]; simpl; try discriminate.
    destruct (derive_columns d) as [d' | e | ]; simpl; discriminate.
  - intros t t' Hr Hd; rewrite Hr; simpl; rewrite Hd; reflexivity.
Qed.

End CH3pFacts.

Lemma extract_hitran_ch3p_defaults_witness :
  snd (extract_hitran_ch3p (list Q) (list bool) ch3p_read_fwf (fun t => Ok t)
         (fun t x => map (fun w => np.Qlt_bool x w) t)
         (fun t x => map (fun w => np.Qlt_bool w x) t)
         ch3p_mask_and ch3p_select "data_Hitran_2020_CH3+.par" None None)
  = Raise (UnboundLocalError "waveminbool").
Proof.
  destruct (extract_hitran_ch3p_defaults (list Q) (list bool) ch3p_read_fwf
              (fun t => Ok t)
              (fun t x => map (fun w => np.Qlt_bool x w) t)
              (fun t x => map (fun w => np.Qlt_bool w x) t)
              ch3p_mask_and ch3p_select "data_Hitran_2020_CH3+.par")
    as (_ & H & _).
  apply (H ch3p_rows ch3p_rows); reflexivity.
Defined.

(** ** The molecule tables *)

Lemma str_in_In (x : string) (l : list string) : str_in x l = true <-> In x l.
Proof.
  unfold str_in; rewrite existsb_exists; split.
  - intros (y & Hy & E); apply String.eqb_eq in E; subst; exact Hy.
  - intros H; exists x; split; [exact H | apply String.eqb_refl].
Qed.

Lemma dict_get_In {V : Type} (key : string) (d : list (string * V)) :
  In key (map fst d) -> exists v, dict_get key d = Some v.
Proof.
  induction d as [ | [k v] d IH]; simpl; intros H; [contradiction | ].
  destruct (dict_get key d) as [v' | ] eqn:E; [exists v'; reflexivity | ].
  destruct (String.eqb_spec key k) as [-> | Hne]; [exists v; reflexivity | ].
  destruct H as [H | H]; [congruence | ].
  destruct (IH H) as (v' & Hv'); discriminate.
Qed.

(** Each number from 1 to 47 names a molecule, and the two translations
    undo each other. *)
Lemma identifier_table_checked :
  forallb (fun kv =>
             match get_molecule_identifier (snd kv), int (fst kv) with
             | Ok M, Ok M' =>
                 Z.eqb M M' &&
                 match translate_molecule_identifier M with
                 | Ok name => String.eqb name (snd kv)
                 | _ => false
                 end
             | _, _ => false
             end)
          molecule_identifier_trans = true /\
  map fst molecule_identifier_trans = map (fun n => str (Z.of_nat n)) (seq 1 47) /\
  forallb (fun n => match int (str (Z.of_nat n)) with
                    | Ok M => Z.eqb M (Z.of_nat n)
                    | _ => false
                    end) (seq 1 47) = true.
Proof. split; [ | split]; vm_compute; reflexivity. Qed.

Lemma int_str_small (n : nat) :
  In n (seq 1 47) -> int (str (Z.of_nat n)) = Ok (Z.of_nat n).
Proof.
  destruct identifier_table_checked as (_ & _ & H).
  rewrite forallb_forall in H; intros Hn; specialize (H n Hn).
  destruct (int (str (Z.of_nat n))) as [M | | ]; try discriminate.
  apply Z.eqb_eq in H; congruence.
Qed.

(** X1.  The two translations between molecule names and HITRAN
    molecule numbers undo each other: for every number [M] from 1 to 47
    [translate_molecule_identifier] returns a name that
    [get_molecule_identifier] maps back to [M], and every name
    [get_molecule_identifier] accepts is returned as a number from 1 to
    47 that [translate_molecule_identifier] maps back to the name. *)
Theorem molecule_identifier_round_trip :
  (forall M : Z,
     (1 <= M <= 47)%Z ->
     exists name,
       translate_molecule_identifier M = Ok name /\
       get_molecule_identifier name = Ok M) /\
  (forall name M,
     get_molecule_identifier name = Ok M ->
     (1 <= M <= 47)%Z /\ translate_molecule_identifier M = Ok name).
Proof.
  destruct identifier_table_checked as (Hall & Hkeys & _).
  rewrite forallb_forall in Hall.
  split.
  - intros M HM.
    assert (Hin : In (str M) (map fst molecule_identifier_trans)).
    { rewrite Hkeys; apply in_map_iff; exists (Z.to_nat M); split.
      - rewrite Z2Nat.id by lia; reflexivity.
      - apply in_seq; lia. }
    apply in_map_iff in Hin as ([k name] & Hk & Hin); simpl in Hk.
    specialize (Hall _ Hin); simpl in Hall.
    destruct (get_molecule_identifier name) as [M1 | | ] eqn:Hget;
      try discriminate.
    rewrite Hk in Hall.
    assert (Hint : int (str M) = Ok M).
    { rewrite <- (Z2Nat.id M) by lia; apply int_str_small, in_seq; lia. }
    rewrite Hint in Hall.
    apply andb_prop in Hall as [HM1 Htr]; apply Z.eqb_eq in HM1; subst M1.
    destruct (translate_molecule_identifier M) as [name' | | ] eqn:Htrans;
      try discriminate.
    apply String.eqb_eq in Htr; subst name'.
    exists name; split; [reflexivity | exact Hget].
  - intros name M Hget.
    assert (Hin : In name (map snd molecule_identifier_trans)).
    { destruct (in_dec string_dec name (map snd molecule_identifier_trans))
        as [Hin | Hout]; [exact Hin | ].
      unfold get_molecule_identifier in Hget.
      rewrite subscript_unknown in Hget by (rewrite invert_keys; exact Hout).
      discriminate. }
    apply in_map_iff in Hin as ([k name'] & Hn & Hin); simpl in Hn; subst name'.
    pose proof (Hall _ Hin) as Hrow; simpl in Hrow.
    rewrite Hget in Hrow.
    destruct (int k) as [M' | | ] eqn:Hint; try discriminate.
    apply andb_prop in Hrow as [HM Htr]; apply Z.eqb_eq in HM; subst M'.
    destruct (translate_molecule_identifier M) as [name' | | ] eqn:Htrans;
      try discriminate.
    apply String.eqb_eq in Htr; subst name'.
    split; [ | reflexivity].
    assert (Hk : In k (map fst molecule_identifier_trans)).
    { apply in_map_iff; exists (k, name); split; [reflexivity | exact Hin]. }
    rewrite Hkeys in Hk; apply in_map_iff in Hk as (n & Hn & Hseq).
    subst k; rewrite (int_str_small n Hseq) in Hint.
    apply in_seq in Hseq; injection Hint as <-; lia.
Qed.

Lemma molecule_identifier_round_trip_witness :
  (exists name,
     translate_molecule_identifier 23 = Ok name /\
     get_molecule_identifier name = Ok 23%Z) /\
  ((1 <= 5 <= 47)%Z /\ translate_molecule_identifier 5 = Ok "CO").
Proof.
  destruct molecule_identifier_round_trip as [Hto Hfrom].
  split.
  - apply (Hto 23%Z); lia.
  - apply (Hfrom "CO" 5%Z); reflexivity.
Defined.

Lemma dict_get_Some_In {V : Type} (key : string) (d : list (string * V)) (v : V) :
  dict_get key d = Some v -> In (key, v) d.
Proof.
  induction d as [ | [k v'] d IH]; simpl; [discriminate | ].
  destruct (dict_get key d) as [v0 | ] eqn:E.
  - intros H; injection H as ->; right; apply IH; reflexivity.
  - destruct (String.eqb_spec key k) as [-> | Hne]; [ | discriminate].
    intros H; injection H as ->; left; reflexivity.
Qed.

Lemma subscript_Ok_In {V : Type} (key : string) (d : list (string * V)) (v : V) :
  subscript d key = Ok v -> In (key, v) d.
Proof.
  unfold subscript; destruct (dict_get key d) as [v' | ] eqn:E; [ | discriminate].
  intros H; injection H as ->; apply dict_get_Some_In, E.
Qed.

Lemma subscript_In {V : Type} (key : string) (d : list (string * V)) :
  In key (map fst d) -> exists v, subscript d key = Ok v.
Proof.
  intros H; destruct (dict_get_In key d H) as (v & Hv).
  exists v; unfold subscript; rewrite Hv; reflexivity.
Qed.

Lemma hitran_list_is_identifier_table :
  hitran_list = map snd molecule_identifier_trans.
Proof. reflexivity. Qed.

Lemma check_hitran_HITRAN (name : string) :
  _check_hitran name = Some "HITRAN" <-> In name hitran_list.
Proof.
  rewrite <- str_in_In; unfold _check_hitran.
  destruct (str_in name hitran_list); [tauto | ].
  destruct (str_in name exomol_list);
    [split; intros H; discriminate | ].
  destruct (str_in name geisa_list);
    [split; intros H; discriminate | ].
  destruct (str_in name other_list); split; intros H; discriminate.
Qed.

Lemma get_molecule_identifier_known (name : string) :
  In name hitran_list -> exists M, get_molecule_identifier name = Ok M.
Proof.
  rewrite hitran_list_is_identifier_table; intros Hin.
  apply in_map_iff in Hin as ([k name'] & Hn & Hin); simpl in Hn; subst name'.
  destruct identifier_table_checked as (Hall & _).
  rewrite forallb_forall in Hall; specialize (Hall _ Hin); simpl in Hall.
  destruct (get_molecule_identifier name) as [M | | ]; try discriminate.
  exists M; reflexivity.
Qed.

Lemma get_molecule_identifier_unknown (name : string) :
  ~ In name hitran_list -> get_molecule_identifier name = Raise KeyError.
Proof.
  rewrite hitran_list_is_identifier_table; intros Hout.
  unfold get_molecule_identifier.
  rewrite subscript_unknown by (rewrite invert_keys; exact Hout).
  reflexivity.
Qed.

Lemma get_molecule_identifier_not_HITRAN (name : string) :
  _check_hitran name <> Some "HITRAN" ->
  get_molecule_identifier name = Raise KeyError.
Proof.
  intros H; apply get_molecule_identifier_unknown.
  intros Hin; apply H, check_hitran_HITRAN, Hin.
Qed.

(** X2.  [_check_hitran] and [get_molecule_identifier] agree on what a
    HITRAN molecule is: [_check_hitran] answers ['HITRAN'] exactly for
    the names [get_molecule_identifier] translates into a number, and
    for every other name, those of the other three data bases among
    them, [get_molecule_identifier] raises [KeyError]. *)
Theorem check_hitran_agrees_with_identifier (name : string) :
  (_check_hitran name = Some "HITRAN" <->
   exists M, get_molecule_identifier name = Ok M) /\
  (_check_hitran name <> Some "HITRAN" ->
   get_molecule_identifier name = Raise KeyError).
Proof.
  split; [split | apply get_molecule_identifier_not_HITRAN].
  - intros H; apply get_molecule_identifier_known, check_hitran_HITRAN, H.
  - intros (M & HM); apply check_hitran_HITRAN.
    destruct (in_dec string_dec name hitran_list) as [Hin | Hout];
      [exact Hin | ].
    rewrite (get_molecule_identifier_unknown name Hout) in HM; discriminate.
Qed.

Lemma check_hitran_agrees_with_identifier_witness :
  get_molecule_identifier "C6H6" = Raise KeyError.
Proof.
  apply (check_hitran_agrees_with_identifier "C6H6"); discriminate.
Defined.

(** Every name [_check_hitran] recognises is in one of its four lists. *)
Lemma check_hitran_Some (name db : string) :
  _check_hitran name = Some db ->
  In name (hitran_list ++ exomol_list ++ geisa_list ++ other_list).
Proof.
  unfold _check_hitran; intros H.
  rewrite !in_app_iff, <- !str_in_In.
  destruct (str_in name hitran_list); [tauto | ].
  destruct (str_in name exomol_list); [tauto | ].
  destruct (str_in name geisa_list); [tauto | ].
  destruct (str_in name other_list); [tauto | discriminate].
Qed.

Lemma recognised_molecules_checked :
  forallb (fun name =>
             match get_molmass name 1, get_global_identifier name 1 with
             | Ok m, ([], Ok _) => np.Qlt_bool 0 m
             | _, _ => false
             end)
          (hitran_list ++ exomol_list ++ geisa_list ++ other_list) = true.
Proof. vm_compute; reflexivity. Qed.

Lemma Qlt_bool_true (x y : Q) : np.Qlt_bool x y = true -> x < y.
Proof.
  unfold np.Qlt_bool; intros H; apply Qnot_le_lt; intros Hle.
  apply Qle_bool_iff in Hle; rewrite Hle in H; discriminate.
Qed.

(** X3.  Every molecule [_check_hitran] recognises, in whichever of its
    four data bases, has a main isotopologue the other tables know: with
    the default [isotopologue_number=1], [get_molmass] returns a
    positive mass and [get_global_identifier] returns a number without
    printing anything. *)
Theorem recognised_molecule_has_mass_and_identifier (name db : string) :
  _check_hitran name = Some db ->
  (exists m, get_molmass name 1 = Ok m /\ 0 < m) /\
  (exists G, get_global_identifier name 1 = ([], Ok G)).
Proof.
  intros H; apply check_hitran_Some in H.
  pose proof recognised_molecules_checked as Hall.
  rewrite forallb_forall in Hall; specialize (Hall _ H).
  destruct (get_molmass name 1) as [m | | ]; try discriminate.
  destruct (get_global_identifier name 1) as [[ | line out] [G | | ]];
    try discriminate.
  split.
  - exists m; split; [reflexivity | apply Qlt_bool_true, Hall].
  - exists G; reflexivity.
Qed.

Lemma recognised_molecule_has_mass_and_identifier_witness :
  (exists m, get_molmass "CH3+" 1 = Ok m /\ 0 < m) /\
  (exists G, get_global_identifier "CH3+" 1 = ([], Ok G)).
Proof.
  apply (recognised_molecule_has_mass_and_identifier "CH3+" "other").
  reflexivity.
Defined.

(** In a table whose values are pairwise distinct, a value has one key. *)
Lemma NoDup_values_key {V : Type} (d : list (string * V)) (k1 k2 : string) (v : V) :
  NoDup (map snd d) -> In (k1, v) d -> In (k2, v) d -> k1 = k2.
Proof.
  induction d as [ | [k v'] d IH]; simpl; intros Hnd H1 H2; [contradiction | ].
  inversion Hnd as [ | ? ? Hout Hnd']; subst.
  destruct H1 as [H1 | H1], H2 as [H2 | H2].
  - congruence.
  - injection H1 as -> ->; exfalso; apply Hout.
    apply in_map_iff; exists (k2, v); split; [reflexivity | exact H2].
  - injection H2 as -> ->; exfalso; apply Hout.
    apply in_map_iff; exists (k1, v); split; [reflexivity | exact H1].
  - apply IH; assumption.
Qed.

Lemma distinctb_NoDup (l : list Z) : distinctb l = true -> NoDup l.
Proof.
  induction l as [ | x l IH]; simpl; intros H; constructor.
  - apply andb_prop in H as [H _]; intros Hin.
    assert (E : existsb (Z.eqb x) l = true).
    { apply existsb_exists; exists x; split; [exact Hin | apply Z.eqb_refl]. }
    rewrite E in H; discriminate.
  - apply IH; apply andb_prop in H as [_ H]; exact H.
Qed.

Lemma get_global_identifier_Ok (name : string) (iso G : Z) :
  snd (get_global_identifier name iso) = Ok G ->
  In ((name ++ "_" ++ str iso)%string, G) global_identifier_trans.
Proof.
  unfold get_global_identifier; intros H.
  apply subscript_Ok_In.
  destruct (subscript global_identifier_trans (name ++ "_" ++ str iso))
    as [G' | [] | ]; simpl in H; try discriminate; exact H.
Qed.

(** X4.  The global identifier names the isotopologue: two calls of
    [get_global_identifier] that return the same number were made for
    the same molecule/isotopologue code [name_iso]. *)
Theorem global_identifier_injective (name1 name2 : string) (iso1 iso2 G : Z) :
  snd (get_global_identifier name1 iso1) = Ok G ->
  snd (get_global_identifier name2 iso2) = Ok G ->
  (name1 ++ "_" ++ str iso1 = name2 ++ "_" ++ str iso2)%string.
Proof.
  intros H1 H2.
  apply get_global_identifier_Ok in H1, H2.
  apply (NoDup_values_key global_identifier_trans _ _ G); try assumption.
  apply distinctb_NoDup; vm_compute; reflexivity.
Qed.

Lemma global_identifier_injective_witness :
  ("H2O" ++ "_" ++ str 7 = "H2O" ++ "_" ++ str 7)%string.
Proof.
  apply (global_identifier_injective "H2O" "H2O" 7 7 129); reflexivity.
Defined.

Lemma global_identifier_masses_checked :
  forallb (fun key =>
             match dict_get key molmass_mass with
             | Some m => np.Qlt_bool 0 m
             | None => false
             end)
          (map fst global_identifier_trans) = true.
Proof. vm_compute; reflexivity. Qed.

(** X5.  The mass table covers the identifier table: whenever
    [get_global_identifier] returns a number for a molecule and an
    isotopologue, [get_molmass] returns a mass for the same two
    arguments, and the mass is positive. *)
Theorem global_identifier_has_mass (name : string) (iso G : Z) :
  snd (get_global_identifier name iso) = Ok G ->
  exists m, get_molmass name iso = Ok m /\ 0 < m.
Proof.
  intros H; apply get_global_identifier_Ok in H.
  pose proof global_identifier_masses_checked as Hall.
  rewrite forallb_forall in Hall.
  specialize (Hall (name ++ "_" ++ str iso)%string).
  unfold get_molmass, subscript.
  destruct (dict_get (name ++ "_" ++ str iso) molmass_mass) as [m | ].
  - exists m; split; [reflexivity | ].
    apply Qlt_bool_true, Hall.
    apply in_map_iff; exists ((name ++ "_" ++ str iso)%string, G).
    split; [reflexivity | exact H].
  - assert (E : false = true); [ | discriminate E].
    apply Hall, in_map_iff; exists ((name ++ "_" ++ str iso)%string, G).
    split; [reflexivity | exact H].
Qed.

Lemma global_identifier_has_mass_witness :
  exists m, get_molmass "CO2" 9 = Ok m /\ 0 < m.
Proof.
  apply (global_identifier_has_mass "CO2" 9 121); reflexivity.
Defined.

(** ** The sub-bands of the MIRI MRS *)

Lemma mrs_wavelengths_checked :
  forallb (fun band =>
             match get_miri_mrs_wavelengths band,
                   subscript mrs_resolution_w0 band,
                   subscript mrs_resolution_w1 band with
             | ([], Ok (lo, hi)), Ok lo', Ok hi' =>
                 np.Qlt_bool lo hi && Qle_bool lo lo' && np.Qlt_bool lo' hi'
                 && Qle_bool hi' hi
             | _, _, _ => false
             end)
          (map fst mrs_wavelengths_w0) = true.
Proof. vm_compute; reflexivity. Qed.

(** X6.  For each of the twelve sub-band names
    [get_miri_mrs_wavelengths] prints nothing and returns a pair
    [(w0, w1)] with [w0 < w1], and the wavelength range over which
    [get_miri_mrs_resolution] applies the resolving power of that
    sub-band lies inside the pair. *)
Theorem mrs_wavelengths_of_subband (subband : string) :
  In subband (map fst mrs_wavelengths_w0) ->
  exists lo hi lo' hi',
    get_miri_mrs_wavelengths subband = ([], Ok (lo, hi)) /\
    lo < hi /\
    subscript mrs_resolution_w0 subband = Ok lo' /\
    subscript mrs_resolution_w1 subband = Ok hi' /\
    lo <= lo' /\ lo' < hi' /\ hi' <= hi.
Proof.
  intros H.
  pose proof mrs_wavelengths_checked as Hall.
  rewrite forallb_forall in Hall; specialize (Hall _ H).
  destruct (get_miri_mrs_wavelengths subband)
    as [[ | line out] [[lo hi] | | ]]; try discriminate.
  destruct (subscript mrs_resolution_w0 subband) as [lo' | | ];
    try discriminate.
  destruct (subscript mrs_resolution_w1 subband) as [hi' | | ];
    try discriminate.
  apply andb_prop in Hall as [Hall H4].
  apply andb_prop in Hall as [Hall H3].
  apply andb_prop in Hall as [H1 H2].
  exists lo, hi, lo', hi'.
  split; [reflexivity | ].
  split; [apply Qlt_bool_true, H1 | ].
  split; [reflexivity | ].
  split; [reflexivity | ].
  split; [apply Qle_bool_iff, H2 | ].
  split; [apply Qlt_bool_true, H3 | apply Qle_bool_iff, H4].
Qed.

Lemma mrs_wavelengths_of_subband_witness :
  exists lo hi lo' hi',
    get_miri_mrs_wavelengths "3B" = ([], Ok (lo, hi)) /\
    lo < hi /\
    subscript mrs_resolution_w0 "3B" = Ok lo' /\
    subscript mrs_resolution_w1 "3B" = Ok hi' /\
    lo <= lo' /\ lo' < hi' /\ hi' <= hi.
Proof.
  apply (mrs_wavelengths_of_subband "3B").
  simpl; tauto.
Defined.

(** ** [get_miri_mrs_resolution] *)

(** *** The loop over the sub-bands *)

Lemma mrs_resolution_step_row (wave tw R : list Q) (band : string) :
  In band (map fst mrs_resolution_w0) ->
  mrs_resolution_step wave (tw, R) band =
  Ok (tw ++ filter (band_mask (mrs_band_row band)) wave,
      R ++ map (band_R (mrs_band_row band))
               (filter (band_mask (mrs_band_row band)) wave)).
Proof.
  simpl; intros H.
  repeat (destruct H as [<- | H]; [reflexivity | ]).
  contradiction.
Qed.

Lemma mrs_resolution_loop_entries (wave : list Q) (bands : list string) :
  incl bands (map fst mrs_resolution_w0) ->
  forall tw R,
    mrs_resolution_loop wave bands (tw, R) =
    Ok (tw ++ map fst (mrs_entries wave bands),
        R ++ map snd (mrs_entries wave bands)).
Proof.
  induction bands as [ | band bands IH]; intros Hin tw R.
  - simpl; rewrite !app_nil_r; reflexivity.
  - cbn [mrs_resolution_loop].
    rewrite mrs_resolution_step_row by (apply Hin; left; reflexivity).
    cbn [bind].
    rewrite IH by (intros b Hb; apply Hin; right; exact Hb).
    unfold mrs_entries; simpl flat_map.
    rewrite !map_app, !map_map; simpl.
    rewrite map_id, <- !app_assoc; reflexivity.
Qed.

Lemma get_miri_mrs_resolution_unfold (wave : list Q) :
  let E := mrs_entries wave (map fst mrs_resolution_w0) in
  let U := np_unique (map fst E) in
  get_miri_mrs_resolution wave =
  Ok (U, minimum_at (repeat None (length U))
           (map (fun e => index_of (fst e) U) E) (map snd E)).
Proof.
  intros E U; unfold get_miri_mrs_resolution.
  rewrite mrs_resolution_loop_entries by apply incl_refl.
  simpl bind; fold E; fold U.
  rewrite map_map; reflexivity.
Qed.

Lemma mrs_entries_In (wave : list Q) (bands : list string) (w v : Q) :
  In (w, v) (mrs_entries wave bands) <->
  exists band,
    In band bands /\ In w wave /\ band_mask (mrs_band_row band) w = true /\
    v = band_R (mrs_band_row band) w.
Proof.
  unfold mrs_entries; rewrite in_flat_map; split.
  - intros (band & Hb & H); apply in_map_iff in H as (w' & E & H).
    injection E as -> <-; apply filter_In in H as [Hw Hm].
    exists band; repeat split; assumption.
  - intros (band & Hb & Hw & Hm & ->); exists band; split; [exact Hb | ].
    apply in_map_iff; exists w; split; [reflexivity | ].
    apply filter_In; split; assumption.
Qed.

Lemma band_mask_in_band (row : Q * Q * Q * Q) (w : Q) :
  band_mask row w = true <-> in_band row w.
Proof.
  destruct row as [[[lo hi] A] B]; simpl; rewrite andb_true_iff.
  rewrite Qle_bool_iff; split; intros [H1 H2]; split; try exact H2.
  - apply Qlt_bool_true, H1.
  - unfold np.Qlt_bool; destruct (Qle_bool w lo) eqn:E; [ | reflexivity].
    apply Qle_bool_iff in E; lra.
Qed.

Lemma in_band_compat (row : Q * Q * Q * Q) (w w' : Q) :
  w == w' -> in_band row w -> in_band row w'.
Proof.
  destruct row as [[[lo hi] A] B]; simpl; intros E [H1 H2]; split; lra.
Qed.

Lemma band_R_compat (row : Q * Q * Q * Q) (w w' : Q) :
  w == w' -> band_R row w == band_R row w'.
Proof.
  destruct row as [[[lo hi] A] B]; simpl; intros E; rewrite E; reflexivity.
Qed.

Lemma mrs_band_rows_eq :
  mrs_band_rows =
  [(4.90, 5.74, -19.5, 572); (5.66, 6.63, 2742, 150); (6.53, 7.65, -543, 601);
   (7.51, 8.77, 332, 400); (8.67, 10.13, -331, 400); (10.02, 11.70, 430, 264);
   (11.55, 13.47, -5120, 633); (13.34, 15.57, -1871, 317);
   (15.41, 17.98, -2440, 312); (17.70, 20.95, -2066, 225);
   (20.69, 24.48, -1076, 150); (24.19, 28.10, -3451, 216)].
Proof. reflexivity. Qed.

(** The sub-bands overlap: together they cover the wavelengths above
    4.90 up to 28.10 microns, and nothing else. *)
Lemma mrs_bands_cover (w : Q) :
  (exists row, In row mrs_band_rows /\ in_band row w) <->
  4.90 < w /\ w <= 28.10.
Proof.
  rewrite mrs_band_rows_eq; split.
  - intros (row & Hrow & Hw); simpl in Hrow.
    repeat (destruct Hrow as [<- | Hrow]; [simpl in Hw; lra | ]).
    contradiction.
  - intros [Hlo Hhi].
    destruct (Qlt_le_dec 5.74 w) as [H1 | H1];
      [ | exists (4.90, 5.74, -19.5, 572); simpl; split; [tauto | lra]].
    destruct (Qlt_le_dec 6.63 w) as [H2 | H2];
      [ | exists (5.66, 6.63, 2742, 150); simpl; split; [tauto | lra]].
    destruct (Qlt_le_dec 7.65 w) as [H3 | H3];
      [ | exists (6.53, 7.65, -543, 601); simpl; split; [tauto | lra]].
    destruct (Qlt_le_dec 8.77 w) as [H4 | H4];
      [ | exists (7.51, 8.77, 332, 400); simpl; split; [tauto | lra]].
    destruct (Qlt_le_dec 10.13 w) as [H5 | H5];
      [ | exists (8.67, 10.13, -331, 400); simpl; split; [tauto | lra]].
    destruct (Qlt_le_dec 11.70 w) as [H6 | H6];
      [ | exists (10.02, 11.70, 430, 264); simpl; split; [tauto | lra]].
    destruct (Qlt_le_dec 13.47 w) as [H7 | H7];
      [ | exists (11.55, 13.47, -5120, 633); simpl; split; [tauto | lra]].
    destruct (Qlt_le_dec 15.57 w) as [H8 | H8];
      [ | exists (13.34, 15.57, -1871, 317); simpl; split; [tauto | lra]].
    destruct (Qlt_le_dec 17.98 w) as [H9 | H9];
      [ | exists (15.41, 17.98, -2440, 312); simpl; split; [tauto | lra]].
    destruct (Qlt_le_dec 20.95 w) as [H10 | H10];
      [ | exists (17.70, 20.95, -2066, 225); simpl; split; [tauto | lra]].
    destruct (Qlt_le_dec 24.48 w) as [H11 | H11];
      [ | exists (20.69, 24.48, -1076, 150); simpl; split; [tauto | lra]].
    exists (24.19, 28.10, -3451, 216); simpl; split; [tauto | lra].
Qed.

(** Inside its sub-band the resolving power of a sub-band is positive. *)
Lemma band_R_positive (row : Q * Q * Q * Q) (w : Q) :
  In row mrs_band_rows -> in_band row w -> 0 < band_R row w.
Proof.
  rewrite mrs_band_rows_eq; intros Hrow Hw; simpl in Hrow.
  repeat (destruct Hrow as [<- | Hrow]; [simpl in Hw |- *; lra | ]).
  contradiction.
Qed.

Lemma mrs_band_rows_In (row : Q * Q * Q * Q) :
  In row mrs_band_rows <->
  exists band, In band (map fst mrs_resolution_w0) /\ row = mrs_band_row band.
Proof.
  unfold mrs_band_rows; rewrite in_map_iff; split.
  - intros (b & E & H); exists b; split; [exact H | symmetry; exact E].
  - intros (b & H & E); exists b; split; [symmetry; exact E | exact H].
Qed.

(** *** [np.unique] *)

Lemma strictly_increasing_cons (a b : Q) (t : list Q) :
  strictly_increasing (a :: b :: t) <-> a < b /\ strictly_increasing (b :: t).
Proof. reflexivity. Qed.

Lemma strictly_increasing_tail (a : Q) (t : list Q) :
  strictly_increasing (a :: t) -> strictly_increasing t.
Proof. destruct t as [ | b t]; [intros _; exact I | intros [_ H]; exact H]. Qed.

Lemma increasing_head_lt (a y : Q) (t : list Q) :
  strictly_increasing (a :: t) -> In y t -> a < y.
Proof.
  revert a; induction t as [ | b t IH]; intros a H Hin; [contradiction | ].
  destruct H as [Hab Ht]; destruct Hin as [<- | Hin]; [exact Hab | ].
  apply Qlt_trans with b; [exact Hab | apply IH; assumption].
Qed.

Lemma unique_insert_after (x y : Q) (l : list Q) :
  strictly_increasing (y :: l) -> y < x ->
  strictly_increasing (y :: unique_insert x l).
Proof.
  revert y; induction l as [ | z l IH]; intros y H Hyx.
  - simpl; tauto.
  - destruct H as [Hyz Hz]; cbn [unique_insert].
    destruct (x ?= z) eqn:E.
    + split; assumption.
    + apply Qlt_alt in E.
      apply strictly_increasing_cons; split; [exact Hyx | ].
      apply strictly_increasing_cons; split; assumption.
    + apply Qgt_alt in E.
      apply strictly_increasing_cons; split; [exact Hyz | ].
      apply IH; assumption.
Qed.

Lemma unique_insert_increasing (x : Q) (l : list Q) :
  strictly_increasing l -> strictly_increasing (unique_insert x l).
Proof.
  destruct l as [ | z l]; intros H; [exact I | ].
  cbn [unique_insert]; destruct (x ?= z) eqn:E.
  - exact H.
  - apply Qlt_alt in E; apply strictly_increasing_cons; split; assumption.
  - apply Qgt_alt in E; apply unique_insert_after; assumption.
Qed.

Lemma np_unique_increasing (a : list Q) : strictly_increasing (np_unique a).
Proof.
  induction a as [ | x a IH]; [exact I | ].
  apply unique_insert_increasing, IH.
Qed.

Lemma unique_insert_In (x y : Q) (l : list Q) :
  In y (unique_insert x l) -> y = x \/ In y l.
Proof.
  induction l as [ | z l IH]; simpl.
  - intros [<- | []]; left; reflexivity.
  - destruct (x ?= z); simpl.
    + tauto.
    + intros [<- | H]; [left; reflexivity | right; exact H].
    + intros [<- | H]; [right; left; reflexivity | ].
      destruct (IH H) as [-> | H']; [left; reflexivity | right; right; exact H'].
Qed.

Lemma unique_insert_keeps (x y : Q) (l : list Q) :
  In y l -> In y (unique_insert x l).
Proof.
  induction l as [ | z l IH]; simpl; [tauto | ].
  destruct (x ?= z); simpl; tauto.
Qed.

Lemma unique_insert_has (x : Q) (l : list Q) :
  exists y, In y (unique_insert x l) /\ y == x.
Proof.
  induction l as [ | z l IH]; simpl.
  - exists x; split; [left; reflexivity | reflexivity].
  - destruct (x ?= z) eqn:E.
    + apply Qeq_alt in E; exists z; split; [left; reflexivity | ].
      symmetry; exact E.
    + exists x; split; [left; reflexivity | reflexivity].
    + destruct IH as (y & Hy & Hyx); exists y; split; [right; exact Hy | exact Hyx].
Qed.

Lemma np_unique_In (a : list Q) (y : Q) : In y (np_unique a) -> In y a.
Proof.
  induction a as [ | x a IH]; simpl; [tauto | ].
  intros H; apply unique_insert_In in H as [-> | H]; [left; reflexivity | ].
  right; apply IH, H.
Qed.

Lemma np_unique_has (a : list Q) (x : Q) :
  In x a -> exists y, In y (np_unique a) /\ y == x.
Proof.
  induction a as [ | z a IH]; simpl; [tauto | ].
  intros [-> | H]; [apply unique_insert_has | ].
  destruct (IH H) as (y & Hy & Hyx).
  exists y; split; [apply unique_insert_keeps, Hy | exact Hyx].
Qed.

(** In an ascending array the inverse index of a value is the place of
    the element equal to it. *)
Lemma index_of_nth (x : Q) (l : list Q) (j : nat) :
  strictly_increasing l -> (j < length l)%nat -> nth j l 0 == x ->
  index_of x l = j.
Proof.
  revert j; induction l as [ | z l IH]; intros j Hinc Hj Hx;
    [simpl in Hj; lia | ].
  destruct j as [ | j]; simpl in Hx |- *.
  - assert (E : Qeq_bool x z = true) by (apply Qeq_bool_iff; symmetry; exact Hx).
    rewrite E; reflexivity.
  - simpl in Hj.
    assert (Hlt : z < nth j l 0).
    { apply (increasing_head_lt z _ l Hinc), nth_In; lia. }
    destruct (Qeq_bool x z) eqn:E.
    + apply Qeq_bool_iff in E; lra.
    + f_equal; apply IH; [eapply strictly_increasing_tail, Hinc | lia | exact Hx].
Qed.

Lemma index_of_select (x : Q) (l : list Q) (j : nat) :
  strictly_increasing l -> (j < length l)%nat ->
  (exists y, In y l /\ y == x) ->
  (Nat.eqb (index_of x l) j = true <-> x == nth j l 0).
Proof.
  intros Hinc Hj (y & Hy & Hyx); rewrite Nat.eqb_eq; split.
  - intros E.
    destruct (In_nth l y 0 Hy) as (k & Hk & Hnth).
    assert (Ek : index_of x l = k).
    { apply index_of_nth; [exact Hinc | exact Hk | rewrite Hnth; exact Hyx]. }
    rewrite <- E, Ek, Hnth; symmetry; exact Hyx.
  - intros E; apply index_of_nth; [exact Hinc | exact Hj | symmetry; exact E].
Qed.

(** *** [np.minimum.at] *)

Lemma length_update_nth {A : Type} (i : nat) (f : A -> A) (l : list A) :
  length (update_nth i f l) = length l.
Proof.
  revert i; induction l as [ | x l IH]; intros [ | i]; simpl;
    try reflexivity.
  rewrite IH; reflexivity.
Qed.

Lemma nth_update_nth {A : Type} (i j : nat) (f : A -> A) (l : list A) (d : A) :
  (j < length l)%nat ->
  nth j (update_nth i f l) d = if Nat.eqb i j then f (nth j l d) else nth j l d.
Proof.
  revert i j; induction l as [ | x l IH]; intros i j Hj; [simpl in Hj; lia | ].
  destruct i as [ | i], j as [ | j]; simpl; try reflexivity.
  apply IH; simpl in Hj; lia.
Qed.

Lemma length_minimum_at (a : list (option Q)) (idx : list nat) (b : list Q) :
  length (minimum_at a idx b) = length a.
Proof.
  revert a b; induction idx as [ | i idx IH]; intros a [ | r b]; simpl;
    try reflexivity.
  rewrite IH; apply length_update_nth.
Qed.

Lemma minimum_at_fold (key : Q -> nat) (E : list (Q * Q)) (j : nat) :
  forall a : list (option Q),
    (j < length a)%nat ->
    nth j (minimum_at a (map (fun e => key (fst e)) E) (map snd E)) None =
    fold_left (minimum_where (fun e => Nat.eqb (key (fst e)) j))
              E (nth j a None).
Proof.
  induction E as [ | e E IH]; intros a Hj; [reflexivity | ].
  simpl; rewrite IH by (rewrite length_update_nth; exact Hj).
  rewrite nth_update_nth by exact Hj; reflexivity.
Qed.

Section FoldMinimum.

Variable sel : Q * Q -> bool.

Lemma fold_minimum_Some (E : list (Q * Q)) (q : Q) :
  exists r,
    fold_left (minimum_where sel) E (Some q) = Some r /\ r <= q /\
    (forall e, In e E -> sel e = true -> r <= snd e) /\
    (r == q \/ exists e, In e E /\ sel e = true /\ r == snd e).
Proof.
  revert q; induction E as [ | e E IH]; intros q.
  - exists q; simpl; split; [reflexivity | ].
    split; [apply Qle_refl | ].
    split; [tauto | left; reflexivity].
  - simpl; unfold minimum_where at 2; destruct (sel e) eqn:Es.
    + simpl; destruct (IH (Qmin q (snd e))) as (r & Hr & Hle & Hall & Hatt).
      exists r; split; [exact Hr | ].
      split; [apply Qle_trans with (Qmin q (snd e)); [exact Hle | apply Q.le_min_l] | ].
      split.
      * intros e' [<- | Hin] Hs; [ | apply Hall; assumption].
        apply Qle_trans with (Qmin q (snd e)); [exact Hle | apply Q.le_min_r].
      * destruct Hatt as [Hq | (e' & Hin & Hs & He')].
        -- destruct (Q.min_dec q (snd e)) as [Hm | Hm].
           ++ left; rewrite Hq; exact Hm.
           ++ right; exists e; split; [left; reflexivity | ].
              split; [exact Es | rewrite Hq; exact Hm].
        -- right; exists e'; split; [right; exact Hin | split; assumption].
    + destruct (IH q) as (r & Hr & Hle & Hall & Hatt).
      exists r; split; [exact Hr | ]; split; [exact Hle | ]; split.
      * intros e' [<- | Hin] Hs; [congruence | apply Hall; assumption].
      * destruct Hatt as [Hq | (e' & Hin & Hs & He')]; [left; exact Hq | ].
        right; exists e'; split; [right; exact Hin | split; assumption].
Qed.

Lemma fold_minimum_None (E : list (Q * Q)) :
  (exists e, In e E /\ sel e = true) ->
  exists r,
    fold_left (minimum_where sel) E None = Some r /\
    (forall e, In e E -> sel e = true -> r <= snd e) /\
    (exists e, In e E /\ sel e = true /\ r == snd e).
Proof.
  induction E as [ | e E IH]; intros (e0 & Hin0 & Hs0); [contradiction | ].
  simpl; unfold minimum_where at 2; destruct (sel e) eqn:Es.
  - simpl; destruct (fold_minimum_Some E (snd e)) as (r & Hr & Hle & Hall & Hatt).
    exists r; split; [exact Hr | ]; split.
    + intros e' [<- | Hin] Hs; [exact Hle | apply Hall; assumption].
    + destruct Hatt as [Hq | (e' & Hin & Hs & He')].
      * exists e; split; [left; reflexivity | split; assumption].
      * exists e'; split; [right; exact Hin | split; assumption].
  - destruct Hin0 as [-> | Hin0]; [congruence | ].
    destruct IH as (r & Hr & Hall & (e' & Hin & Hs & He'));
      [exists e0; split; assumption | ].
    exists r; split; [exact Hr | ]; split.
    + intros e1 [<- | Hin1] Hs1; [congruence | apply Hall; assumption].
    + exists e'; split; [right; exact Hin | split; assumption].
Qed.

End FoldMinimum.

(** *** The result *)

Lemma mrs_resolution_result (wave uw : list Q) (R : list (option Q)) :
  get_miri_mrs_resolution wave = Ok (uw, R) ->
  uw = np_unique (map fst (mrs_entries wave (map fst mrs_resolution_w0))) /\
  R = minimum_at (repeat None (length uw))
        (map (fun e => index_of (fst e) uw)
             (mrs_entries wave (map fst mrs_resolution_w0)))
        (map snd (mrs_entries wave (map fst mrs_resolution_w0))).
Proof.
  rewrite get_miri_mrs_resolution_unfold; cbv zeta.
  intros H; injection H as <- <-; split; reflexivity.
Qed.

Lemma mrs_entries_fst (wave : list Q) (w : Q) :
  In w (map fst (mrs_entries wave (map fst mrs_resolution_w0))) <->
  In w wave /\ exists row, In row mrs_band_rows /\ in_band row w.
Proof.
  rewrite in_map_iff; split.
  - intros ([w' v] & E & H); simpl in E; subst w'.
    apply mrs_entries_In in H as (band & Hb & Hw & Hm & _).
    split; [exact Hw | ].
    exists (mrs_band_row band); split.
    + apply mrs_band_rows_In; exists band; split; [exact Hb | reflexivity].
    + apply band_mask_in_band, Hm.
  - intros (Hw & row & Hrow & Hin).
    apply mrs_band_rows_In in Hrow as (band & Hb & ->).
    exists (w, band_R (mrs_band_row band) w); split; [reflexivity | ].
    apply mrs_entries_In; exists band; repeat split; try assumption.
    apply band_mask_in_band, Hin.
Qed.

(** The value at place [j] of the result is the smallest resolving power
    among the collected pairs whose wavelength is the [j]-th unique
    one. *)
Lemma mrs_resolution_smallest_entry (wave uw : list Q) (R : list (option Q))
  (j : nat) :
  get_miri_mrs_resolution wave = Ok (uw, R) ->
  (j < length uw)%nat ->
  exists r,
    nth j R None = Some r /\
    (forall e, In e (mrs_entries wave (map fst mrs_resolution_w0)) ->
               fst e == nth j uw 0 -> r <= snd e) /\
    (exists e, In e (mrs_entries wave (map fst mrs_resolution_w0)) /\
               fst e == nth j uw 0 /\ r == snd e).
Proof.
  intros H Hj; apply mrs_resolution_result in H as [HU HR].
  set (E := mrs_entries wave (map fst mrs_resolution_w0)) in *.
  assert (Hinc : strictly_increasing uw)
    by (rewrite HU; apply np_unique_increasing).
  assert (Hsel : forall e, In e E ->
            (Nat.eqb (index_of (fst e) uw) j = true <-> fst e == nth j uw 0)).
  { intros e He; apply index_of_select; [exact Hinc | exact Hj | ].
    rewrite HU; apply np_unique_has, in_map, He. }
  assert (Hnth : nth j R None =
                 fold_left (minimum_where
                              (fun e => Nat.eqb (index_of (fst e) uw) j))
                           E None).
  { rewrite HR.
    rewrite (minimum_at_fold (fun w => index_of w uw) E j)
      by (rewrite repeat_length; exact Hj).
    rewrite nth_repeat; reflexivity. }
  destruct (fold_minimum_None
              (fun e => Nat.eqb (index_of (fst e) uw) j) E)
    as (r & Hr & Hall & (e & He & Hs & Hatt)).
  { assert (Hin : In (nth j uw 0) (map fst E)).
    { apply np_unique_In; rewrite <- HU; apply nth_In, Hj. }
    apply in_map_iff in Hin as (e & Ee & He).
    exists e; split; [exact He | ].
    apply (Hsel e He); rewrite Ee; reflexivity. }
  exists r; split; [rewrite Hnth; exact Hr | ]; split.
  - intros e' He' Hw; apply Hall; [exact He' | apply (Hsel e' He'), Hw].
  - exists e; split; [exact He | ]; split; [apply (Hsel e He), Hs | exact Hatt].
Qed.

Lemma mrs_resolution_kept (wave uw : list Q) (R : list (option Q)) :
  get_miri_mrs_resolution wave = Ok (uw, R) ->
  length R = length uw /\
  strictly_increasing uw /\
  (forall w, In w uw -> In w wave /\ 4.90 < w /\ w <= 28.10) /\
  (forall w, In w wave -> 4.90 < w -> w <= 28.10 ->
             exists w', In w' uw /\ w' == w).
Proof.
  intros H; apply mrs_resolution_result in H as [HU HR].
  split; [rewrite HR, length_minimum_at; apply repeat_length | ].
  split; [rewrite HU; apply np_unique_increasing | ].
  split.
  - intros w Hw; rewrite HU in Hw; apply np_unique_In in Hw.
    apply mrs_entries_fst in Hw as (Hw & Hrow).
    split; [exact Hw | apply mrs_bands_cover, Hrow].
  - intros w Hw Hlo Hhi; rewrite HU; apply np_unique_has.
    apply mrs_entries_fst; split; [exact Hw | ].
    apply mrs_bands_cover; split; assumption.
Qed.

Lemma mrs_resolution_value (wave uw : list Q) (R : list (option Q)) (i : nat) :
  get_miri_mrs_resolution wave = Ok (uw, R) ->
  (i < length uw)%nat ->
  exists r,
    nth i R None = Some r /\
    0 < r /\
    (forall row, In row mrs_band_rows -> in_band row (nth i uw 0) ->
                 r <= band_R row (nth i uw 0)) /\
    (exists row, In row mrs_band_rows /\ in_band row (nth i uw 0) /\
                 r == band_R row (nth i uw 0)).
Proof.
  intros H Hi.
  destruct (mrs_resolution_smallest_entry wave uw R i H Hi)
    as (r & Hr & Hall & ([w v] & He & Hw & Hv)).
  simpl in Hw, Hv.
  apply mrs_entries_In in He as (band & Hb & Hin & Hm & ->).
  assert (Hrow : In (mrs_band_row band) mrs_band_rows).
  { apply mrs_band_rows_In; exists band; split; [exact Hb | reflexivity]. }
  apply band_mask_in_band in Hm.
  exists r; split; [exact Hr | ]; split; [ | split].
  - rewrite Hv; apply band_R_positive; assumption.
  - intros row Hrow' Hband.
    apply mrs_band_rows_In in Hrow' as (band' & Hb' & ->).
    apply mrs_resolution_kept in H as (_ & _ & Hkept & _).
    destruct (Hkept (nth i uw 0) (nth_In uw 0 Hi)) as (Hwave & _).
    apply (Hall (nth i uw 0, band_R (mrs_band_row band') (nth i uw 0)));
      [ | reflexivity].
    apply mrs_entries_In; exists band'; repeat split; try assumption.
    apply band_mask_in_band, Hband.
  - exists (mrs_band_row band); split; [exact Hrow | ]; split.
    + apply (in_band_compat _ w); assumption.
    + rewrite Hv; apply band_R_compat, Hw.
Qed.

(** X7.  [get_miri_mrs_resolution] returns for every array of
    wavelengths.  The wavelengths it returns are in strictly ascending
    order, one resolving power comes with each, and they are the
    wavelengths of the input above 4.90 and up to 28.10 microns: the
    twelve sub-bands overlap and leave no gap between these bounds, and
    a wavelength outside of them is dropped without a notice. *)
Theorem mrs_resolution_wavelengths (wave : list Q) :
  exists uw R,
    get_miri_mrs_resolution wave = Ok (uw, R) /\
    length R = length uw /\
    strictly_increasing uw /\
    (forall w, In w uw -> In w wave /\ 4.90 < w /\ w <= 28.10) /\
    (forall w, In w wave -> 4.90 < w -> w <= 28.10 ->
               exists w', In w' uw /\ w' == w).
Proof.
  pose proof (get_miri_mrs_resolution_unfold wave) as H; cbv zeta in H.
  eexists; eexists; split; [exact H | ].
  apply (mrs_resolution_kept wave), H.
Qed.

(** X8.  The resolving power [get_miri_mrs_resolution] returns for a
    wavelength is a number, not the [np.inf] the array starts from; it
    is positive; and it is the smallest of the values [A + B * w] of the
    sub-bands the wavelength falls in: no such sub-band gives less, and
    one of them gives it. *)
Theorem mrs_resolution_smallest (wave uw : list Q) (R : list (option Q))
  (i : nat) :
  get_miri_mrs_resolution wave = Ok (uw, R) ->
  (i < length uw)%nat ->
  exists r,
    nth i R None = Some r /\
    0 < r /\
    (forall row, In row mrs_band_rows -> in_band row (nth i uw 0) ->
                 r <= band_R row (nth i uw 0)) /\
    (exists row, In row mrs_band_rows /\ in_band row (nth i uw 0) /\
                 r == band_R row (nth i uw 0)).
Proof. apply mrs_resolution_value. Qed.

Lemma mrs_resolution_smallest_witness :
  exists r,
    nth 1 [Some 2840.5; Some 3240.90] None = Some r /\
    0 < r /\
    (forall row, In row mrs_band_rows -> in_band row (nth 1 [5; 5.7] 0) ->
                 r <= band_R row (nth 1 [5; 5.7] 0)) /\
    (exists row, In row mrs_band_rows /\ in_band row (nth 1 [5; 5.7] 0) /\
                 r == band_R row (nth 1 [5; 5.7] 0)).
Proof.
  apply (mrs_resolution_smallest [5.7; 30; 5; 5.7] [5; 5.7]
           [Some 2840.5; Some 3240.90] 1).
  - vm_compute; reflexivity.
  - simpl; lia.
Defined.

(** *** Handing the result to [spec_convol_R] *)

Lemma finite_array_Ok (R : list (option Q)) :
  (forall j, (j < length R)%nat -> exists r, nth j R None = Some r /\ 0 < r) ->
  exists rs,
    finite_array R = Ok rs /\ length rs = length R /\
    Forall (fun r => 0 < r) rs.
Proof.
  induction R as [ | [q | ] R IH]; intros H.
  - exists []; repeat split; constructor.
  - destruct IH as (rs & Hrs & Hlen & Hpos).
    { intros j Hj; apply (H (S j)); simpl; lia. }
    exists (q :: rs); simpl; rewrite Hrs; simpl.
    split; [reflexivity | ]; split; [congruence | ].
    constructor; [ | exact Hpos].
    destruct (H 0%nat) as (r & Hr & Hpos0); [simpl; lia | ].
    simpl in Hr; injection Hr as ->; exact Hpos0.
  - destruct (H 0%nat) as (r & Hr & _); [simpl; lia | discriminate].
Qed.

(** X9.  The two arrays [get_miri_mrs_resolution] returns can be handed
    to [spec_convol_R] as [wave] and [R] as they are: when two
    wavelengths or more are left, the resolving powers are finite and
    positive, no two wavelengths coincide, and the convolver returns one
    flux value per wavelength for any flux array of that length. *)
Theorem mrs_resolution_feeds_spec_convol_R (K : Q -> list Q)
  (wave uw flux : list Q) (R : list (option Q)) :
  normalizable K ->
  get_miri_mrs_resolution wave = Ok (uw, R) ->
  (2 <= length uw)%nat ->
  length flux = length uw ->
  exists rs out,
    finite_array R = Ok rs /\
    spec_convol_R K uw flux (Array rs) = Ok out /\
    length out = length uw.
Proof.
  intros HK H Hn Hflux.
  pose proof (mrs_resolution_kept wave uw R H) as (Hlen & Hinc & _).
  destruct (finite_array_Ok R) as (rs & Hrs & Hlrs & Hpos).
  { intros j Hj; rewrite Hlen in Hj.
    destruct (mrs_resolution_value wave uw R j H Hj) as (r & Hr & Hr0 & _).
    exists r; split; assumption. }
  destruct (spec_convol_R_locals_Ok K uw flux (Array rs)) as (fr & Hfr).
  - intros E; rewrite E in Hn; simpl in Hn; lia.
  - symmetry; exact Hflux.
  - apply increasing_positive_spacing; assumption.
  - split; [congruence | exact Hpos].
  - exact HK.
  - exists rs, (flux_oldsampling fr); split; [exact Hrs | ].
    assert (Hout : spec_convol_R K uw flux (Array rs) = Ok (flux_oldsampling fr)).
    { unfold spec_convol_R, fmap; rewrite Hfr; reflexivity. }
    split; [exact Hout | apply (spec_convol_R_length K uw flux _ _ Hout)].
Qed.

Lemma mrs_resolution_feeds_spec_convol_R_witness :
  exists rs out,
    finite_array [Some 2840.5; Some 3240.90] = Ok rs /\
    spec_convol_R kernel_121 [5; 5.7] [1; 2] (Array rs) = Ok out /\
    length out = length [5; 5.7].
Proof.
  apply (mrs_resolution_feeds_spec_convol_R kernel_121 [5.7; 30; 5; 5.7]).
  - apply kernel_121_normalizable.
  - vm_compute; reflexivity.
  - simpl; lia.
  - reflexivity.
Defined.

(** ** [get_miri_mrs_resolution] on its own result *)

Lemma increasing_Qeq_eq (l : list Q) (x y : Q) :
  strictly_increasing l -> In x l -> In y l -> x == y -> x = y.
Proof.
  induction l as [ | a l IH]; intros Hinc Hx Hy E; [contradiction | ].
  destruct Hx as [<- | Hx], Hy as [<- | Hy].
  - reflexivity.
  - pose proof (increasing_head_lt a y l Hinc Hy); lra.
  - pose proof (increasing_head_lt a x l Hinc Hx); lra.
  - apply IH; try assumption; eapply strictly_increasing_tail, Hinc.
Qed.

Lemma increasing_same_elements (l1 l2 : list Q) :
  strictly_increasing l1 -> strictly_increasing l2 ->
  (forall x, In x l1 <-> In x l2) -> l1 = l2.
Proof.
  revert l2; induction l1 as [ | a t1 IH]; intros [ | b t2] H1 H2 Hsame.
  - reflexivity.
  - exfalso; apply (proj2 (Hsame b)); left; reflexivity.
  - exfalso; apply (proj1 (Hsame a)); left; reflexivity.
  - assert (Eab : a = b).
    { destruct (proj1 (Hsame a) (or_introl eq_refl)) as [E | Ha];
        [symmetry; exact E | ].
      destruct (proj2 (Hsame b) (or_introl eq_refl)) as [E | Hb];
        [exact E | ].
      pose proof (increasing_head_lt b a t2 H2 Ha).
      pose proof (increasing_head_lt a b t1 H1 Hb).
      lra. }
    subst b; f_equal; apply IH.
    + eapply strictly_increasing_tail, H1.
    + eapply strictly_increasing_tail, H2.
    + intros x; split; intros Hx.
      * destruct (proj1 (Hsame x) (or_intror Hx)) as [E | Hx']; [ | exact Hx'].
        pose proof (increasing_head_lt a x t1 H1 Hx); subst x; lra.
      * destruct (proj2 (Hsame x) (or_intror Hx)) as [E | Hx']; [ | exact Hx'].
        pose proof (increasing_head_lt a x t2 H2 Hx); subst x; lra.
Qed.

(** X10.  [get_miri_mrs_resolution] is idempotent: called on the
    wavelengths it has returned, it returns the same wavelengths and,
    with each, the same resolving power. *)
Theorem mrs_resolution_idempotent (wave uw : list Q) (R : list (option Q)) :
  get_miri_mrs_resolution wave = Ok (uw, R) ->
  exists R',
    get_miri_mrs_resolution uw = Ok (uw, R') /\
    length R' = length R /\
    forall i, (i < length uw)%nat ->
      exists r r',
        nth i R None = Some r /\ nth i R' None = Some r' /\ r' == r.
Proof.
  intros H.
  pose proof (mrs_resolution_kept wave uw R H) as (Hlen & Hinc & Hin & _).
  pose proof (get_miri_mrs_resolution_unfold uw) as H'; cbv zeta in H'.
  set (uw' := np_unique (map fst (mrs_entries uw (map fst mrs_resolution_w0))))
    in H'.
  set (R' := minimum_at (repeat None (length uw'))
               (map (fun e => index_of (fst e) uw')
                    (mrs_entries uw (map fst mrs_resolution_w0)))
               (map snd (mrs_entries uw (map fst mrs_resolution_w0)))) in H'.
  pose proof (mrs_resolution_kept uw uw' R' H') as (Hlen' & Hinc' & Hin' & Hall').
  assert (E : uw' = uw).
  { apply increasing_same_elements; try assumption.
    intros x; split; intros Hx; [apply Hin', Hx | ].
    destruct (Hin x Hx) as (_ & Hlo & Hhi).
    destruct (Hall' x Hx Hlo Hhi) as (w' & Hw' & Ew).
    assert (w' = x); [ | subst w'; exact Hw'].
    apply (increasing_Qeq_eq uw); try assumption.
    apply Hin', Hw'. }
  rewrite E in H', Hlen'.
  exists R'; split; [exact H' | ]; split; [congruence | ].
  intros i Hi.
  destruct (mrs_resolution_value wave uw R i H Hi)
    as (r & Hr & _ & Hle & (row & Hrow & Hband & Hatt)).
  destruct (mrs_resolution_value uw uw R' i H' Hi)
    as (r' & Hr' & _ & Hle' & (row' & Hrow' & Hband' & Hatt')).
  exists r, r'; split; [exact Hr | ]; split; [exact Hr' | ].
  apply Qle_antisym.
  - rewrite Hatt; apply Hle'; assumption.
  - rewrite Hatt'; apply Hle; assumption.
Qed.

Lemma mrs_resolution_idempotent_witness :
  exists R',
    get_miri_mrs_resolution [5; 5.7] = Ok ([5; 5.7], R') /\
    length R' = length [Some 2840.5; Some 3240.90] /\
    forall i, (i < 2)%nat ->
      exists r r',
        nth i [Some 2840.5; Some 3240.90] None = Some r /\
        nth i R' None = Some r' /\ r' == r.
Proof.
  apply (mrs_resolution_idempotent [5.7; 30; 5; 5.7]).
  vm_compute; reflexivity.
Defined.

(** ** More on the convolver *)

(** *** The resolving power as an array *)

Lemma div_singleton (wave : list Q) (r : Q) :
  np.div wave [r] = np.div_scalar wave r.
Proof.
  unfold np.div; destruct (Nat.eqb_spec (length wave) (length [r])) as [E | E].
  - destruct wave as [ | x [ | y wave]]; try discriminate E; reflexivity.
  - destruct wave as [ | x [ | y wave]]; reflexivity.
Qed.

Lemma div_mismatch (a b : list Q) :
  length a <> length b -> length a <> 1%nat -> length b <> 1%nat ->
  np.div a b = Raise ValueError.
Proof.
  intros Hab Ha Hb; unfold np.div.
  destruct (Nat.eqb_spec (length a) (length b)) as [E | _]; [contradiction | ].
  destruct b as [ | y [ | z b]]; [ | simpl in Hb; lia | ].
  - destruct a as [ | x [ | x' a]]; [reflexivity | simpl in Ha; lia | reflexivity].
  - destruct a as [ | x [ | x' a]]; [reflexivity | simpl in Ha; lia | reflexivity].
Qed.

(** X11.  How [spec_convol_R] takes a resolving power given as an array.
    An array of one element is broadcast and acts as the number in it.
    An array of any other length than that of [wave] makes the call end
    in the [ValueError] of the division [wave / R], whatever the flux
    is. *)
Theorem resolution_array_length (K : Q -> list Q) (wave flux rs : list Q) :
  (forall r, rs = [r] ->
     spec_convol_R K wave flux (Array rs) = spec_convol_R K wave flux (Scalar r)) /\
  (wave <> [] ->
   length rs <> length wave -> length rs <> 1%nat -> length wave <> 1%nat ->
   spec_convol_R K wave flux (Array rs) = Raise ValueError).
Proof.
  split.
  - intros r ->; unfold spec_convol_R, spec_convol_R_locals, div_resolution.
    rewrite div_singleton; reflexivity.
  - intros Hne Hl Hrs Hw.
    unfold spec_convol_R, spec_convol_R_locals, div_resolution, fmap.
    destruct (min_Ok (np.abs (np.sub wave (np.roll wave 1)))) as (m & Hm).
    { apply nonempty_length; rewrite length_dws.
      destruct wave; [contradiction | simpl; lia]. }
    rewrite Hm; simpl.
    rewrite div_mismatch by congruence; reflexivity.
Qed.

Lemma resolution_array_length_witness :
  spec_convol_R kernel_121 [1; 2; 3] [1; 1; 1] (Array [100; 100]) =
  Raise ValueError.
Proof.
  apply (resolution_array_length kernel_121 [1; 2; 3] [1; 1; 1] [100; 100]);
    simpl; try discriminate; lia.
Defined.

(** *** The resampled grid is ascending *)

Lemma Qdiv_pos (x s : Q) : 0 < x -> 0 < s -> 0 < x / s.
Proof. intros Hx Hs; apply Qlt_shift_div_l; [exact Hs | lra]. Qed.

Lemma div_scalar_pos (a r : list Q) (s : Q) :
  Forall (fun x => 0 < x) a -> 0 < s -> np.div_scalar a s = Ok r ->
  Forall (fun x => 0 < x) r.
Proof.
  intros Ha Hs H; apply div_scalar_Ok_inv in H; subst r.
  apply Forall_map; eapply Forall_impl; [ | exact Ha].
  intros x Hx; apply Qdiv_pos; assumption.
Qed.

Lemma div_elementwise_pos (a b r : list Q) :
  Forall (fun x => 0 < x) a -> Forall (fun x => 0 < x) b ->
  np.div_elementwise a b = Ok r -> Forall (fun x => 0 < x) r.
Proof.
  revert b r; induction a as [ | x a IH]; intros [ | y b] r Ha Hb H;
    simpl in H; try (injection H as <-; constructor).
  apply bind_Ok_inv in H as (q & Hq & H).
  apply bind_Ok_inv in H as (r' & Hr' & H); injection H as <-.
  inversion Ha; inversion Hb; subst.
  unfold np.fdiv in Hq; destruct (np.is_zero y); [discriminate | ].
  injection Hq as <-; constructor; [apply Qdiv_pos; assumption | ].
  eapply IH; eassumption.
Qed.

Lemma div_resolution_pos (wave fw : list Q) (R : resolution) :
  Forall (fun x => 0 < x) wave -> valid_resolution (length wave) R ->
  div_resolution wave R = Ok fw -> Forall (fun x => 0 < x) fw.
Proof.
  destruct R as [r | rs]; unfold valid_resolution, div_resolution;
    intros Hw HR H.
  - exact (div_scalar_pos wave fw r Hw HR H).
  - destruct HR as [Hl Hpos]; unfold np.div in H.
    rewrite Hl, Nat.eqb_refl in H.
    exact (div_elementwise_pos wave rs fw Hw Hpos H).
Qed.

Lemma cumsum_from_increasing (acc : Q) (a : list Q) :
  Forall (fun x => 0 < x) a ->
  strictly_increasing (acc :: np.cumsum_from acc a).
Proof.
  revert acc; induction a as [ | x a IH]; intros acc H; [exact I | ].
  inversion H; subst; cbn [np.cumsum_from].
  apply strictly_increasing_cons; split; [lra | apply IH; assumption].
Qed.

Lemma cumsum_increasing (a : list Q) :
  Forall (fun x => 0 < x) a -> strictly_increasing (np.cumsum a).
Proof.
  destruct a as [ | x a]; intros H; [exact I | ].
  inversion H; subst; apply cumsum_from_increasing; assumption.
Qed.

Lemma add_scalar_increasing (l : list Q) (s : Q) :
  strictly_increasing l -> strictly_increasing (np.add_scalar l s).
Proof.
  induction l as [ | a l IH]; intros H; [exact I | ].
  destruct l as [ | b l]; [exact I | ].
  destruct H as [Hab Hl].
  change (np.add_scalar (a :: b :: l) s)
    with (a + s :: np.add_scalar (b :: l) s).
  change (np.add_scalar (b :: l) s) with (b + s :: np.add_scalar l s) in *.
  apply strictly_increasing_cons; split; [lra | apply IH, Hl].
Qed.

(** X12.  For positive wavelengths and a positive resolving power the
    resampled grid of a finished call is strictly ascending, as the
    second [np.interp], which does not check its sample points, needs
    it; and every point of the grid lies above the smallest input
    wavelength. *)
Theorem resampled_grid_ascending (K : Q -> list Q) (wave flux : list Q)
  (R : resolution) (fr : convol_locals) :
  Forall (fun w => 0 < w) wave ->
  valid_resolution (length wave) R ->
  spec_convol_R_locals K wave flux R = Ok fr ->
  strictly_increasing (wave_constfwhm fr) /\
  exists wave_min,
    np.min wave = Ok wave_min /\
    Forall (fun x => wave_min < x) (wave_constfwhm fr).
Proof.
  intros Hw HR H.
  apply spec_convol_R_locals_inv in H as (sa & wm & H).
  destruct H as (_ & _ & Hfw & _ & _ & Hfs & Hds & Hwm & Hgrid & _).
  assert (Hfwpos : Forall (fun x => 0 < x) (fwhm fr))
    by (eapply div_resolution_pos; eassumption).
  assert (Hs : 0 < fwhm_s fr).
  { rewrite Hfs; pose proof (max2_ge_two (fwhm_s_min fr)); lra. }
  assert (Hdspos : Forall (fun x => 0 < x) (ds fr))
    by (eapply div_scalar_pos; eassumption).
  assert (Hinc : strictly_increasing (wave_constfwhm fr)).
  { rewrite Hgrid; apply add_scalar_increasing, cumsum_increasing, Hdspos. }
  split; [exact Hinc | ].
  exists wm; split; [exact Hwm | ].
  destruct (ds fr) as [ | d dss] eqn:Eds;
    [rewrite Hgrid; constructor | ].
  inversion Hdspos; subst.
  rewrite Hgrid in Hinc |- *.
  change (np.add_scalar (np.cumsum (d :: dss)) wm)
    with (d + wm :: np.add_scalar (np.cumsum_from d dss) wm) in *.
  constructor; [lra | ].
  apply Forall_forall; intros x Hx.
  apply Qlt_trans with (d + wm); [lra | ].
  eapply increasing_head_lt; eassumption.
Qed.

Lemma resampled_grid_ascending_witness :
  exists fr,
    spec_convol_R_locals kernel_121 [1; 2; 3] [5; 7; 6] (Scalar 1) = Ok fr /\
    strictly_increasing (wave_constfwhm fr) /\
    exists wave_min,
      np.min [1; 2; 3] = Ok wave_min /\
      Forall (fun x => wave_min < x) (wave_constfwhm fr).
Proof.
  eexists; split; [vm_compute; reflexivity | ].
  apply (resampled_grid_ascending kernel_121 [1; 2; 3] [5; 7; 6] (Scalar 1)).
  - repeat constructor.
  - reflexivity.
  - vm_compute; reflexivity.
Defined.

(** *** The convolver is linear in the flux *)

Lemma combined_length (a b : Q) (xs ys zs : list Q) :
  combined a b xs ys zs -> length ys = length xs /\ length zs = length xs.
Proof.
  induction 1 as [ | x y z xs ys zs Hz H [IH1 IH2]]; simpl;
    [split; reflexivity | split; congruence].
Qed.

Lemma combined_combination (a b : Q) (xs ys : list Q) :
  length xs = length ys -> combined a b xs ys (combination a b xs ys).
Proof.
  revert ys; induction xs as [ | x xs IH]; intros [ | y ys] Hl;
    try discriminate Hl; [constructor | ].
  constructor; [reflexivity | apply IH; simpl in Hl; congruence].
Qed.

Lemma combined_nth (a b : Q) (xs ys zs : list Q) (i : nat) :
  combined a b xs ys zs -> nth i zs 0 == a * nth i xs 0 + b * nth i ys 0.
Proof.
  intros H; revert i; induction H as [ | x y z xs ys zs Hz H IH]; intros [ | i];
    simpl; try ring; [exact Hz | apply IH].
Qed.

Lemma combined_last (a b : Q) (xs ys zs : list Q) (dx dy dz : Q) :
  combined a b xs ys zs -> dz == a * dx + b * dy ->
  last zs dz == a * last xs dx + b * last ys dy.
Proof.
  intros H; revert dx dy dz;
    induction H as [ | x y z xs ys zs Hz H IH]; intros dx dy dz Hd;
    [exact Hd | ].
  destruct H as [ | x' y' z' xs ys zs Hz' H]; [exact Hz | ].
  change (last (z :: z' :: zs) dz) with (last (z' :: zs) dz).
  change (last (x :: x' :: xs) dx) with (last (x' :: xs) dx).
  change (last (y :: y' :: ys) dy) with (last (y' :: ys) dy).
  apply IH, Hd.
Qed.

Lemma interp_search_combined (a b x : Q) (xp : list Q) :
  forall f1 f2 f x0 v1 v2 v,
    combined a b f1 f2 f -> v == a * v1 + b * v2 ->
    np.interp_search x xp f x0 v ==
    a * np.interp_search x xp f1 x0 v1 + b * np.interp_search x xp f2 x0 v2.
Proof.
  induction xp as [ | x1 xp IH]; intros f1 f2 f x0 v1 v2 v H Hv; [exact Hv | ].
  destruct H as [ | w1 w2 w f1 f2 f Hw H]; [exact Hv | ].
  cbn [np.interp_search].
  destruct (Qle_bool x1 x); [apply IH; assumption | ].
  destruct (Qeq_bool x0 x); [exact Hv | ].
  rewrite Hw, Hv; unfold Qdiv; ring.
Qed.

Lemma interp1_combined (a b x : Q) (xp f1 f2 f : list Q) :
  combined a b f1 f2 f ->
  np.interp1 xp f x == a * np.interp1 xp f1 x + b * np.interp1 xp f2 x.
Proof.
  intros H; unfold np.interp1.
  destruct xp as [ | x0 xp]; [ring | ].
  destruct H as [ | v1 v2 v f1 f2 f Hv H]; [ring | ].
  destruct (np.Qlt_bool (last (x0 :: xp) x0) x).
  - apply combined_last; [constructor; assumption | exact Hv].
  - destruct (np.Qlt_bool x x0); [exact Hv | ].
    apply interp_search_combined; assumption.
Qed.

Lemma interp_combined (a b : Q) (x xp f1 f2 f : list Q) :
  combined a b f1 f2 f ->
  combined a b (map (np.interp1 xp f1) x) (map (np.interp1 xp f2) x)
           (map (np.interp1 xp f) x).
Proof.
  intros H; induction x as [ | y x IH]; constructor; [ | exact IH].
  apply interp1_combined, H.
Qed.

Lemma sample_combined (a b : Q) (xs ys zs : list Q) (t : Z) :
  combined a b xs ys zs ->
  astropy.sample astropy.boundary_fill 0 zs t ==
  a * astropy.sample astropy.boundary_fill 0 xs t
  + b * astropy.sample astropy.boundary_fill 0 ys t.
Proof.
  intros H; unfold astropy.sample.
  destruct (combined_length a b xs ys zs H) as [-> ->].
  destruct ((0 <=? t)%Z && (t <? Z.of_nat (length xs))%Z);
    [apply combined_nth, H | ring].
Qed.

Lemma convolve_at_combined (a b : Q) (xs ys zs k : list Q) :
  combined a b xs ys zs ->
  forall t,
    astropy.convolve_at astropy.boundary_fill 0 zs k t ==
    a * astropy.convolve_at astropy.boundary_fill 0 xs k t
    + b * astropy.convolve_at astropy.boundary_fill 0 ys k t.
Proof.
  intros H; induction k as [ | w k IH]; intros t; simpl; [ring | ].
  rewrite (sample_combined a b xs ys zs t H), IH; ring.
Qed.

Lemma convolve_direct_combined (a b : Q) (xs ys zs k : list Q) :
  combined a b xs ys zs ->
  combined a b (astropy.convolve_direct astropy.boundary_fill 0 xs k)
           (astropy.convolve_direct astropy.boundary_fill 0 ys k)
           (astropy.convolve_direct astropy.boundary_fill 0 zs k).
Proof.
  intros H; unfold astropy.convolve_direct.
  destruct (combined_length a b xs ys zs H) as [-> ->].
  induction (seq 0 (length xs)) as [ | i l IH]; constructor; [ | exact IH].
  apply convolve_at_combined, H.
Qed.

Lemma interp_Ok_cond (x xp fp out : list Q) :
  np.interp x xp fp = Ok out -> xp <> [] /\ length xp = length fp.
Proof.
  unfold np.interp; destruct xp as [ | x0 xp]; [discriminate | ].
  destruct (Nat.eqb_spec (length (x0 :: xp)) (length fp)) as [E | E];
    [ | discriminate].
  intros _; split; [discriminate | exact E].
Qed.

(** For given wavelengths and resolving power a call that returns has
    resampled on a grid and convolved with a kernel that do not depend
    on the flux. *)
Lemma spec_convol_R_operator (K : Q -> list Q) (wave flux out : list Q)
  (R : resolution) :
  spec_convol_R K wave flux R = Ok out ->
  length flux = length wave /\
  exists grid kn,
    forall flux',
      length flux' = length wave ->
      spec_convol_R K wave flux' R =
      Ok (map (np.interp1 grid
                 (astropy.convolve_direct astropy.boundary_fill 0
                    (map (np.interp1 wave flux') grid) kn))
              wave).
Proof.
  unfold spec_convol_R; intros H.
  apply fmap_Ok_inv in H as (fr & Hfr & ->).
  apply spec_convol_R_locals_inv in Hfr as (sa & wm & Hfr).
  destruct Hfr as (Hdws & Hmin & Hfw & Hsa & Hfsm & Hfs & Hds & Hwm & Hgrid
                   & Hfc & Hsig & Hg & Hcv & Hfo).
  destruct (interp_Ok_cond _ _ _ _ Hfc) as [Hne1 Hl1].
  destruct (interp_Ok_cond _ _ _ _ Hfo) as [Hne2 Hl2].
  split; [symmetry; exact Hl1 | ].
  apply convolve_fft_Ok_length in Hcv as Hlcv.
  apply interp_Ok_inv in Hfc.
  assert (Hlgrid : length (flux_conv fr) = length (wave_constfwhm fr))
    by (rewrite Hlcv, Hfc; apply length_map).
  unfold astropy.convolve_fft in Hcv.
  apply bind_Ok_inv in Hcv as (kn & Hkn & _).
  exists (wave_constfwhm fr), kn; intros flux' Hl'.
  unfold fmap, spec_convol_R_locals.
  rewrite <- Hdws, Hmin; cbn [bind].
  rewrite Hfw; cbn [bind].
  rewrite Hsa; cbn [bind].
  rewrite Hfsm; cbn [bind].
  rewrite <- Hfs, Hds; cbn [bind].
  rewrite Hwm; cbn [bind].
  rewrite <- Hgrid.
  rewrite (interp_Ok (wave_constfwhm fr) wave flux')
    by (try exact Hne1; symmetry; exact Hl').
  cbn [bind]; rewrite Hsig; cbn [bind]; rewrite <- Hg.
  unfold astropy.convolve_fft; rewrite Hkn; cbn [bind].
  rewrite interp_Ok;
    [reflexivity | exact Hne2 | ].
  rewrite convolve_direct_length, length_map; reflexivity.
Qed.

(** X13.  [spec_convol_R] is linear in the flux.  When it returns for
    two spectra on the same wavelengths, it returns for every
    combination [a * flux1 + b * flux2] of them, and the result is the
    same combination of the two results: the resampling grid and the
    kernel depend on the wavelengths and the resolving power only. *)
Theorem spec_convol_R_linear (K : Q -> list Q) (wave flux1 flux2 out1 out2 : list Q)
  (R : resolution) (a b : Q) :
  spec_convol_R K wave flux1 R = Ok out1 ->
  spec_convol_R K wave flux2 R = Ok out2 ->
  exists out,
    spec_convol_R K wave (combination a b flux1 flux2) R = Ok out /\
    combined a b out1 out2 out.
Proof.
  intros H1 H2.
  destruct (spec_convol_R_operator K wave flux1 out1 R H1)
    as (Hl1 & grid & kn & Hop).
  destruct (spec_convol_R_operator K wave flux2 out2 R H2) as (Hl2 & _).
  assert (Hc : combined a b flux1 flux2 (combination a b flux1 flux2))
    by (apply combined_combination; congruence).
  destruct (combined_length _ _ _ _ _ Hc) as [_ Hl].
  rewrite (Hop flux1 Hl1) in H1; injection H1 as <-.
  rewrite (Hop flux2 Hl2) in H2; injection H2 as <-.
  eexists; split; [apply Hop; congruence | ].
  apply interp_combined, convolve_direct_combined, interp_combined, Hc.
Qed.

Lemma spec_convol_R_linear_witness :
  exists out1 out2,
    spec_convol_R kernel_121 [1; 2; 3] [5; 7; 6] (Scalar 1) = Ok out1 /\
    spec_convol_R kernel_121 [1; 2; 3] [0; 1; 0] (Scalar 1) = Ok out2 /\
    exists out,
      spec_convol_R kernel_121 [1; 2; 3]
        (combination 3 (-2) [5; 7; 6] [0; 1; 0]) (Scalar 1) = Ok out /\
      combined 3 (-2) out1 out2 out.
Proof.
  eexists; eexists; split; [vm_compute; reflexivity | ].
  split; [vm_compute; reflexivity | ].
  apply (spec_convol_R_linear kernel_121 [1; 2; 3] [5; 7; 6] [0; 1; 0]);
    vm_compute; reflexivity.
Defined.

(** ** The bounds of [extract_hitran_ch3p] *)

Section CH3pBounds.

Variable DataFrame : Type.
Variable Mask : Type.
Variable read_fwf : string -> outcome DataFrame.
Variable derive_columns : DataFrame -> outcome DataFrame.
Variable wave_gt : DataFrame -> Q -> Mask.
Variable wave_lt : DataFrame -> Q -> Mask.
Variable mask_and : Mask -> Mask -> Mask.
Variable select : DataFrame -> Mask -> DataFrame.


End CH3pBounds.


(** ** [extract_hitran_data] *)

Lemma repeat_true_map {A : Type} (l : list A) :
  repeat true (length l) = map (fun _ => true) l.
Proof. induction l as [ | x l IH]; simpl; [reflexivity | rewrite IH; reflexivity]. Qed.

Lemma mask_and_map {A : Type} (f g : A -> bool) (l : list A) :
  mask_and (map f l) (map g l) = map (fun x => f x && g x) l.
Proof.
  unfold mask_and; induction l as [ | x l IH]; simpl; [reflexivity | ].
  rewrite IH; reflexivity.
Qed.

Lemma select_rows_map {A : Type} (f : A -> bool) (l : list A) :
  select_rows l (map f l) = filter f l.
Proof.
  unfold select_rows; induction l as [ | x l IH]; simpl; [reflexivity | ].
  destruct (f x); simpl; rewrite IH; reflexivity.
Qed.

Lemma map_outcome_Ok_inv {A B : Type} (f : A -> outcome B) (l : list A)
  (ys : list B) :
  map_outcome f l = Ok ys -> Forall2 (fun x y => f x = Ok y) l ys.
Proof.
  revert ys; induction l as [ | x l IH]; simpl; intros ys H.
  - injection H as <-; constructor.
  - apply bind_Ok_inv in H as (y & Hy & H).
    apply bind_Ok_inv in H as (ys' & Hys & H); injection H as <-.
    constructor; [exact Hy | apply IH, Hys].
Qed.

Lemma map_outcome_Ok {A B : Type} (f : A -> outcome B) (l : list A) :
  Forall (fun x => returns (f x)) l -> returns (map_outcome f l).
Proof.
  induction l as [ | x l IH]; intros H; [eexists; reflexivity | ].
  inversion H as [ | ? ? (y & Hy) Hl]; subst.
  destruct (IH Hl) as (ys & Hys).
  exists (y :: ys); simpl; rewrite Hy; simpl; rewrite Hys; reflexivity.
Qed.

Lemma map_outcome_map {A B : Type} (f : A -> outcome B) (g : B -> bool)
  (l : list A) (ys : list B) :
  map_outcome f l = Ok ys ->
  map g ys = map (fun x => match f x with Ok y => g y | _ => false end) l.
Proof.
  intros H; apply map_outcome_Ok_inv in H.
  induction H as [ | x y l ys Hxy H IH]; simpl; [reflexivity | ].
  rewrite Hxy, IH; reflexivity.
Qed.

Lemma window_of_wavenumbers (k lo hi wn : Q) :
  0 < k -> 0 < lo -> 0 < hi ->
  k / hi <= wn -> wn <= k / lo ->
  lo <= k / wn /\ k / wn <= hi.
Proof.
  intros Hk Hlo Hhi H1 H2.
  assert (Hwn : 0 < wn).
  { apply Qlt_le_trans with (k / hi); [apply Qdiv_pos; assumption | exact H1]. }
  assert (E1 : k / lo * lo == k) by (field; apply pos_nonzero, Hlo).
  assert (E2 : k / hi * hi == k) by (field; apply pos_nonzero, Hhi).
  split.
  - apply Qle_shift_div_l; [exact Hwn | ].
    rewrite Qmult_comm, <- E1.
    apply Qmult_le_compat_r; [exact H2 | apply Qlt_le_weak, Hlo].
  - apply Qle_shift_div_r; [exact Hwn | ].
    rewrite Qmult_comm, <- E2.
    apply Qmult_le_compat_r; [exact H1 | apply Qlt_le_weak, Hhi].
Qed.

Section HitranDataFacts.

Variable Line : Type.
Variable col_wn : Line -> Q.
Variable col_a : Line -> Q.
Variable col_sw : Line -> Q.
Variable col_elower : Line -> Q.
Variable col_Vp : Line -> string.
Variable query_lines : Z -> Z -> Q -> Q -> outcome (list Line).
Variable wn_to_k : Q -> Q.
Variable parse_int : string -> outcome Z.

Lemma add_columns_Ok_inv (tbl : list Line) (rows : list (hitran_row Line)) :
  add_columns Line col_wn col_elower wn_to_k tbl = Ok rows ->
  map row_line rows = tbl /\
  Forall (fun r => ~ col_wn (row_line r) == 0 /\
                   row_wave r = 1e4 / col_wn (row_line r) /\
                   row_nu r = col_wn (row_line r) * c_cgs_value /\
                   row_eup_k r =
                   wn_to_k (col_wn (row_line r) + col_elower (row_line r)))
         rows.
Proof.
  intros H; apply map_outcome_Ok_inv in H.
  induction H as [ | l r tbl rows Hlr H [IH1 IH2]]; [split; constructor | ].
  apply bind_Ok_inv in Hlr as (w & Hw & Hr); injection Hr as <-.
  unfold np.fdiv in Hw.
  destruct (np.is_zero (col_wn l)) eqn:Ez; [discriminate | ].
  injection Hw as <-; simpl; split; [rewrite IH1; reflexivity | ].
  constructor; [ | exact IH2]; simpl.
  split; [ | repeat split].
  intros E; rewrite (is_zero_true _ E) in Ez; discriminate.
Qed.

Lemma add_columns_Ok (tbl : list Line) :
  Forall (fun l => ~ col_wn l == 0) tbl ->
  returns (add_columns Line col_wn col_elower wn_to_k tbl).
Proof.
  intros H; apply map_outcome_Ok.
  eapply Forall_impl; [ | exact H].
  intros l Hl; unfold np.fdiv; rewrite (is_zero_false _ Hl).
  eexists; reflexivity.
Qed.

(** The four masks and their conjunction select the rows that pass. *)
Lemma extract_hitran_data_select (rows : list (hitran_row Line))
  (eupmax aupmin swmin : option Q) (vup : option Z) (vupbool : list bool) :
  match vup with
  | Some v =>
      vupval <- map_outcome (fun r => parse_int (col_Vp (row_line r))) rows ;;
      Ok (map (fun val => Z.eqb val v) vupval)
  | None => Ok (repeat true (length rows))
  end = Ok vupbool ->
  select_rows rows
    (mask_and
       (mask_and
          (mask_and
             match aupmin with
             | Some x => map (fun r => np.Qlt_bool x (col_a (row_line r))) rows
             | None => repeat true (length rows)
             end
             match eupmax with
             | Some x => map (fun r => np.Qlt_bool (row_eup_k r) x) rows
             | None => repeat true (length rows)
             end)
          match swmin with
          | Some x => map (fun r => np.Qlt_bool x (col_sw (row_line r))) rows
          | None => repeat true (length rows)
          end)
       vupbool) =
  filter (passes col_a col_sw col_Vp parse_int eupmax aupmin swmin vup) rows.
Proof.
  intros Hv.
  assert (Ev : vupbool =
               map (fun r => match vup with
                             | Some v =>
                                 match parse_int (col_Vp (row_line r)) with
                                 | Ok val => Z.eqb val v
                                 | _ => false
                                 end
                             | None => true
                             end) rows).
  { destruct vup as [v | ].
    - apply bind_Ok_inv in Hv as (vupval & Hval & Hv); injection Hv as <-.
      apply (map_outcome_map _ (fun val => Z.eqb val v)), Hval.
    - injection Hv as <-; apply repeat_true_map. }
  rewrite Ev, !repeat_true_map.
  assert (Ea : match aupmin with
               | Some x => map (fun r => np.Qlt_bool x (col_a (row_line r))) rows
               | None => map (fun _ => true) rows
               end =
               map (fun r => match aupmin with
                             | Some x => np.Qlt_bool x (col_a (row_line r))
                             | None => true
                             end) rows) by (destruct aupmin; reflexivity).
  assert (Ee : match eupmax with
               | Some x => map (fun r => np.Qlt_bool (row_eup_k r) x) rows
               | None => map (fun _ => true) rows
               end =
               map (fun r => match eupmax with
                             | Some x => np.Qlt_bool (row_eup_k r) x
                             | None => true
                             end) rows) by (destruct eupmax; reflexivity).
  assert (Es : match swmin with
               | Some x => map (fun r => np.Qlt_bool x (col_sw (row_line r))) rows
               | None => map (fun _ => true) rows
               end =
               map (fun r => match swmin with
                             | Some x => np.Qlt_bool x (col_sw (row_line r))
                             | None => true
                             end) rows) by (destruct swmin; reflexivity).
  rewrite Ea, Ee, Es, !mask_and_map, select_rows_map; reflexivity.
Qed.

Lemma extract_hitran_data_Ok_inv (molecule_name : string) (wavemin wavemax : Q)
  (iso : Z) (eupmax aupmin swmin : option Q) (vup : option Z)
  (out : list (hitran_row Line)) :
  extract_hitran_data Line col_wn col_a col_sw col_elower col_Vp query_lines
    wn_to_k parse_int molecule_name wavemin wavemax iso eupmax aupmin swmin vup
  = Ok out ->
  exists M tbl rows,
    get_molecule_identifier molecule_name = Ok M /\
    ~ wavemax == 0 /\ ~ wavemin == 0 /\
    query_lines M iso (1e4 / wavemax) (1e4 / wavemin) = Ok tbl /\
    add_columns Line col_wn col_elower wn_to_k tbl = Ok rows /\
    out = filter (passes col_a col_sw col_Vp parse_int eupmax aupmin swmin vup)
                 rows.
Proof.
  unfold extract_hitran_data; intros H.
  apply bind_Ok_inv in H as (M & HM & H).
  apply bind_Ok_inv in H as (lo & Hlo & H).
  apply bind_Ok_inv in H as (hi & Hhi & H).
  apply bind_Ok_inv in H as (tbl & Htbl & H).
  apply bind_Ok_inv in H as (rows & Hrows & H).
  apply bind_Ok_inv in H as (vupbool & Hv & H).
  injection H as <-.
  unfold truediv in Hlo, Hhi.
  destruct (np.is_zero wavemax) eqn:Ez1; [discriminate | ].
  destruct (np.is_zero wavemin) eqn:Ez2; [discriminate | ].
  injection Hlo as <-; injection Hhi as <-.
  exists M, tbl, rows.
  split; [exact HM | ].
  split; [intros E; rewrite (is_zero_true _ E) in Ez1; discriminate | ].
  split; [intros E; rewrite (is_zero_true _ E) in Ez2; discriminate | ].
  split; [exact Htbl | ].
  split; [exact Hrows | ].
  apply extract_hitran_data_select, Hv.
Qed.

(** X15.  [extract_hitran_data] serves the molecules of HITRAN only:
    for a name [_check_hitran] does not file under ['HITRAN'], one of
    the molecules of the other data bases or an unknown one, the call
    ends in [KeyError], whatever the other arguments are and whatever
    the service would answer. *)
Theorem extract_hitran_data_unknown_molecule (molecule_name : string)
  (wavemin wavemax : Q) (iso : Z) (eupmax aupmin swmin : option Q)
  (vup : option Z) :
  _check_hitran molecule_name <> Some "HITRAN" ->
  extract_hitran_data Line col_wn col_a col_sw col_elower col_Vp query_lines
    wn_to_k parse_int molecule_name wavemin wavemax iso eupmax aupmin swmin vup
  = Raise KeyError.
Proof.
  intros H; unfold extract_hitran_data.
  rewrite (get_molecule_identifier_not_HITRAN molecule_name H); reflexivity.
Qed.

(** X16.  What [extract_hitran_data] returns.  For a HITRAN molecule and
    two wavelengths other than zero the service is asked for the
    wavenumbers from [1e4 / wavemax] to [1e4 / wavemin]; when it answers
    with lines of wavenumber other than zero, and every entry of ['Vp']
    is an integer in case [vup] is given, the function returns the rows
    of the answer that pass every bound that is given, in the order of
    the answer: [eup_k < eupmax], [a > aupmin], [sw > swmin], all three
    strict, and [int(Vp) == vup].  A bound left at [None] drops no
    row. *)
Theorem extract_hitran_data_filters (molecule_name : string)
  (wavemin wavemax : Q) (iso : Z) (eupmax aupmin swmin : option Q)
  (vup : option Z) (M : Z) (tbl : list Line) :
  get_molecule_identifier molecule_name = Ok M ->
  ~ wavemin == 0 ->
  ~ wavemax == 0 ->
  query_lines M iso (1e4 / wavemax) (1e4 / wavemin) = Ok tbl ->
  Forall (fun l => ~ col_wn l == 0) tbl ->
  (vup <> None ->
   Forall (fun l => returns (parse_int (col_Vp l))) tbl) ->
  exists rows,
    add_columns Line col_wn col_elower wn_to_k tbl = Ok rows /\
    map row_line rows = tbl /\
    extract_hitran_data Line col_wn col_a col_sw col_elower col_Vp query_lines
      wn_to_k parse_int molecule_name wavemin wavemax iso eupmax aupmin swmin
      vup =
    Ok (filter (passes col_a col_sw col_Vp parse_int eupmax aupmin swmin vup)
               rows) /\
    (eupmax = None -> aupmin = None -> swmin = None -> vup = None ->
     extract_hitran_data Line col_wn col_a col_sw col_elower col_Vp query_lines
       wn_to_k parse_int molecule_name wavemin wavemax iso eupmax aupmin swmin
       vup = Ok rows).
Proof.
  intros HM Hmin Hmax Hq Hwn Hvp.
  destruct (add_columns_Ok tbl Hwn) as (rows & Hrows).
  destruct (add_columns_Ok_inv tbl rows Hrows) as [Hlines _].
  assert (Hv : exists vupbool,
             match vup with
             | Some v =>
                 vupval <- map_outcome
                             (fun r => parse_int (col_Vp (row_line r))) rows ;;
                 Ok (map (fun val => Z.eqb val v) vupval)
             | None => Ok (repeat true (length rows))
             end = Ok vupbool).
  { destruct vup as [v | ]; [ | eexists; reflexivity].
    destruct (map_outcome_Ok (fun r => parse_int (col_Vp (row_line r))) rows)
      as (vupval & Hval).
    - assert (Hall : Forall (fun l => returns (parse_int (col_Vp l)))
                            (map row_line rows))
        by (rewrite Hlines; apply Hvp; discriminate).
      exact (proj1 (Forall_map row_line _ rows) Hall).
    - rewrite Hval; eexists; reflexivity. }
  destruct Hv as (vupbool & Hv).
  assert (Hres :
    extract_hitran_data Line col_wn col_a col_sw col_elower col_Vp query_lines
      wn_to_k parse_int molecule_name wavemin wavemax iso eupmax aupmin swmin
      vup =
    Ok (filter (passes col_a col_sw col_Vp parse_int eupmax aupmin swmin vup)
               rows)).
  { unfold extract_hitran_data, truediv.
    rewrite HM; cbn [bind].
    rewrite (is_zero_false _ Hmax); cbn [bind].
    rewrite (is_zero_false _ Hmin); cbn [bind].
    rewrite Hq; cbn [bind]; rewrite Hrows; cbn [bind].
    rewrite Hv; cbn [bind].
    rewrite (extract_hitran_data_select rows eupmax aupmin swmin vup vupbool Hv).
    reflexivity. }
  exists rows; split; [exact Hrows | ]; split; [exact Hlines | ].
  split; [exact Hres | ].
  intros -> -> -> ->; rewrite Hres; f_equal.
  unfold passes; simpl.
  clear; induction rows as [ | r rows IH]; simpl; [reflexivity | ].
  rewrite IH; reflexivity.
Qed.

(** X17.  The wavelengths of the returned lines lie in the window that
    was asked for.  [extract_hitran_data] turns the window
    [wavemin .. wavemax] in microns into the wavenumbers
    [1e4 / wavemax .. 1e4 / wavemin] of the query, the smaller bound
    from the larger wavelength; when the bounds are positive and the
    service answers with lines inside the wavenumbers it was asked for,
    the column ['wave'] of every returned row is [1e4 / wn] and lies
    between [wavemin] and [wavemax]. *)
Theorem extract_hitran_data_window (molecule_name : string)
  (wavemin wavemax : Q) (iso : Z) (eupmax aupmin swmin : option Q)
  (vup : option Z) (out : list (hitran_row Line)) :
  (forall M iso lo hi tbl,
     query_lines M iso lo hi = Ok tbl ->
     Forall (fun l => lo <= col_wn l /\ col_wn l <= hi) tbl) ->
  0 < wavemin ->
  0 < wavemax ->
  extract_hitran_data Line col_wn col_a col_sw col_elower col_Vp query_lines
    wn_to_k parse_int molecule_name wavemin wavemax iso eupmax aupmin swmin vup
  = Ok out ->
  Forall (fun r => row_wave r = 1e4 / col_wn (row_line r) /\
                   wavemin <= row_wave r /\ row_wave r <= wavemax) out.
Proof.
  intros Hservice Hmin Hmax H.
  apply extract_hitran_data_Ok_inv in H
    as (M & tbl & rows & _ & _ & _ & Hq & Hrows & ->).
  apply Hservice in Hq.
  apply add_columns_Ok_inv in Hrows as [Hlines Hcols].
  rewrite <- Hlines in Hq; apply (proj1 (Forall_map row_line _ rows)) in Hq.
  apply Forall_forall; intros r Hr; apply filter_In in Hr as [Hr _].
  rewrite Forall_forall in Hq, Hcols.
  destruct (Hq r Hr) as [Hlo Hhi].
  destruct (Hcols r Hr) as (_ & Hwave & _).
  split; [exact Hwave | ]; rewrite Hwave.
  apply window_of_wavenumbers with (hi := wavemax);
    [reflexivity | assumption ..].
Qed.

End HitranDataFacts.

Lemma example_query_in_range (M iso : Z) (lo hi : Q)
  (tbl : list (Q * Q * Q * Q * string)) :
  example_query M iso lo hi = Ok tbl ->
  Forall (fun l => lo <= example_wn l /\ example_wn l <= hi) tbl.
Proof.
  intros H.
  assert (E : tbl = filter (fun l => Qle_bool lo (example_wn l)
                                     && Qle_bool (example_wn l) hi)
                           example_lines)
    by (unfold example_query in H; congruence).
  rewrite E; clear E H.
  apply Forall_forall; intros l Hl; apply filter_In in Hl as [_ Hl].
  apply andb_prop in Hl as [H1 H2]; split; apply Qle_bool_iff; assumption.
Qed.

Lemma extract_hitran_data_unknown_molecule_witness :
  extract_hitran_data (Q * Q * Q * Q * string) example_wn example_a example_sw
    example_elower example_Vp example_query example_wn_to_k int
    "SiO" 4.5 5.2 1 None None None None = Raise KeyError.
Proof.
  apply extract_hitran_data_unknown_molecule; discriminate.
Defined.

Lemma extract_hitran_data_filters_witness :
  exists rows,
    add_columns (Q * Q * Q * Q * string) example_wn example_elower
      example_wn_to_k [(2000, 10, 1, 100, "1"); (2100, 30, 2, 150, "2")]
    = Ok rows /\
    map row_line rows = [(2000, 10, 1, 100, "1"); (2100, 30, 2, 150, "2")] /\
    extract_hitran_data (Q * Q * Q * Q * string) example_wn example_a
      example_sw example_elower example_Vp example_query example_wn_to_k int
      "CO" 4.5 5.2 1 None (Some 15) None (Some 2%Z) =
    Ok (filter (passes example_a example_sw example_Vp int
                  None (Some 15) None (Some 2%Z)) rows) /\
    (@None Q = None -> Some 15 = None -> @None Q = None -> Some 2%Z = None ->
     extract_hitran_data (Q * Q * Q * Q * string) example_wn example_a
       example_sw example_elower example_Vp example_query example_wn_to_k int
       "CO" 4.5 5.2 1 None (Some 15) None (Some 2%Z) = Ok rows).
Proof.
  apply (extract_hitran_data_filters (Q * Q * Q * Q * string) example_wn
           example_a example_sw example_elower example_Vp example_query
           example_wn_to_k int "CO" 4.5 5.2 1 None (Some 15) None (Some 2%Z) 5).
  - reflexivity.
  - intros E; vm_compute in E; discriminate E.
  - intros E; vm_compute in E; discriminate E.
  - vm_compute; reflexivity.
  - repeat constructor; intros E; vm_compute in E; discriminate E.
  - intros _; repeat constructor; eexists; reflexivity.
Defined.

Lemma extract_hitran_data_window_witness :
  exists out,
    extract_hitran_data (Q * Q * Q * Q * string) example_wn example_a
      example_sw example_elower example_Vp example_query example_wn_to_k int
      "CO" 4.5 5.2 1 None (Some 15) None None = Ok out /\
    Forall (fun r => row_wave r = 1e4 / example_wn (row_line r) /\
                     4.5 <= row_wave r /\ row_wave r <= 5.2) out.
Proof.
  eexists; split; [vm_compute; reflexivity | ].
  apply (extract_hitran_data_window (Q * Q * Q * Q * string) example_wn
           example_a example_sw example_elower example_Vp example_query
           example_wn_to_k int "CO" 4.5 5.2 1 None (Some 15) None None).
  - exact example_query_in_range.
  - reflexivity.
  - reflexivity.
  - vm_compute; reflexivity.
Defined.

(** ** [extract_hitran_from_par] *)

Lemma holds_map {A B : Type} (bound : option A) (test : A -> B -> bool)
  (l : list B) :
  match bound with
  | Some x => map (test x) l
  | None => repeat true (length l)
  end = map (fun r => holds bound (fun x => test x r)) l.
Proof. destruct bound; [reflexivity | apply repeat_true_map]. Qed.

Section HitranParFacts.

Variable Line : Type.
Variable col_local_iso_id : Line -> Z.
Variable col_wn : Line -> Q.
Variable col_sw : Line -> Q.
Variable col_a : Line -> Q.
Variable col_elower : Line -> Q.
Variable col_Vp : Line -> Q.
Variable read_par : string -> io (list Line).
Variable wn_to_k : Q -> Q.

(** X18.  What [extract_hitran_from_par] returns once the file is read
    into a table whose wavenumbers are not zero: the rows of the file, in
    the order of the file, that belong to the isotopologue asked for and
    pass every bound that is given, [eup_k < eupmax], [a > aupmin],
    [sw > swmin], [int(Vp) == vup] and [wavemin < wave < wavemax], all
    comparisons strict.  A bound left at [None] drops no row, so with
    the defaults the rows of isotopologue 1 are returned and the other
    isotopologues of the file are dropped; what was printed while
    reading is what the call prints. *)
Theorem extract_hitran_from_par_filters (filename : string)
  (wavemin wavemax : option Q) (iso : Z) (eupmax aupmin swmin : option Q)
  (vup : option Z) (printed : list string) (data : list Line) :
  read_par filename = (printed, Ok data) ->
  Forall (fun l => ~ col_wn l == 0) data ->
  exists rows,
    add_columns Line col_wn col_elower wn_to_k data = Ok rows /\
    map row_line rows = data /\
    extract_hitran_from_par Line col_local_iso_id col_wn col_sw col_a
      col_elower col_Vp read_par wn_to_k filename wavemin wavemax iso
      eupmax aupmin swmin vup =
    (printed,
     Ok (filter (passes_par col_local_iso_id col_sw col_a col_Vp
                   wavemin wavemax iso eupmax aupmin swmin vup) rows)) /\
    extract_hitran_from_par Line col_local_iso_id col_wn col_sw col_a
      col_elower col_Vp read_par wn_to_k filename None None 1
      None None None None =
    (printed,
     Ok (filter (fun r => Z.eqb (col_local_iso_id (row_line r)) 1) rows)).
Proof.
  intros Hread Hwn.
  destruct (add_columns_Ok Line col_wn col_elower wn_to_k data Hwn)
    as (rows & Hrows).
  destruct (add_columns_Ok_inv Line col_wn col_elower wn_to_k data rows Hrows)
    as [Hlines _].
  exists rows; split; [exact Hrows | ]; split; [exact Hlines | ].
  assert (Hgen : forall wavemin wavemax iso eupmax aupmin swmin vup,
    extract_hitran_from_par Line col_local_iso_id col_wn col_sw col_a
      col_elower col_Vp read_par wn_to_k filename wavemin wavemax iso
      eupmax aupmin swmin vup =
    (printed,
     Ok (filter (passes_par col_local_iso_id col_sw col_a col_Vp
                   wavemin wavemax iso eupmax aupmin swmin vup) rows))).
  { clear wavemin wavemax iso eupmax aupmin swmin vup.
    intros wavemin wavemax iso eupmax aupmin swmin vup.
    unfold extract_hitran_from_par.
    rewrite Hread; unfold io_bind, lift.
    rewrite Hrows; cbn [bind]; rewrite app_nil_r.
    rewrite (holds_map eupmax (fun x r => np.Qlt_bool (row_eup_k r) x) rows).
    rewrite (holds_map aupmin
               (fun x r => np.Qlt_bool x (col_a (row_line r))) rows).
    rewrite (holds_map swmin
               (fun x r => np.Qlt_bool x (col_sw (row_line r))) rows).
    rewrite (holds_map wavemin (fun x r => np.Qlt_bool x (row_wave r)) rows).
    rewrite (holds_map wavemax (fun x r => np.Qlt_bool (row_wave r) x) rows).
    assert (Ev : match vup with
                 | Some v =>
                     map (fun val => Z.eqb val v)
                         (map (fun r => int_of_float (col_Vp (row_line r))) rows)
                 | None => repeat true (length rows)
                 end =
                 map (fun r => holds vup
                        (fun v => Z.eqb (int_of_float (col_Vp (row_line r))) v))
                     rows).
    { destruct vup as [v | ]; [rewrite map_map; reflexivity | ].
      apply repeat_true_map. }
    rewrite Ev, !mask_and_map, select_rows_map; reflexivity. }
  split; [apply Hgen | ].
  exact (Hgen None None 1%Z None None None None).
Qed.

End HitranParFacts.

Lemma extract_hitran_from_par_filters_witness :
  exists rows,
    add_columns (Z * Q * Q) (fun l => snd (fst l)) (fun _ => 100)
      example_wn_to_k example_par = Ok rows /\
    map row_line rows = example_par /\
    extract_hitran_from_par (Z * Q * Q) (fun l => fst (fst l))
      (fun l => snd (fst l)) (fun _ => 1) snd (fun _ => 100) (fun _ => 1)
      example_read_par example_wn_to_k "05_hit12.par" (Some 4.5) None 1
      None (Some 15) None None =
    (["Reading " ++ dquote ++ "05_hit12.par" ++ dquote ++ " ..."]%string,
     Ok (filter (passes_par (fun l => fst (fst l)) (fun _ => 1) snd (fun _ => 1)
                   (Some 4.5) None 1 None (Some 15) None None) rows)) /\
    extract_hitran_from_par (Z * Q * Q) (fun l => fst (fst l))
      (fun l => snd (fst l)) (fun _ => 1) snd (fun _ => 100) (fun _ => 1)
      example_read_par example_wn_to_k "05_hit12.par" None None 1
      None None None None =
    (["Reading " ++ dquote ++ "05_hit12.par" ++ dquote ++ " ..."]%string,
     Ok (filter (fun r => Z.eqb (fst (fst (row_line r))) 1) rows)).
Proof.
  apply (extract_hitran_from_par_filters (Z * Q * Q) (fun l => fst (fst l))
           (fun l => snd (fst l)) (fun _ => 1) snd (fun _ => 100) (fun _ => 1)
           example_read_par example_wn_to_k "05_hit12.par").
  - reflexivity.
  - repeat constructor; intros E; vm_compute in E; discriminate E.
Defined.
